(** * The [dummy] source plugin: event generation and field extraction

    A shallow embedding of [plugins/dummy/dummy.go] and a verification of
    its batch-production and field-extraction behaviour.

    Conventions.
    - Go's [uint64] is a [Z] kept in [0, 2^64); every arithmetic operation
      of the source on it is written with its wrap-around ([u64]).
    - Go's [int] is the 64-bit signed integer of the platforms the plugin
      is built for; conversions between [int] and [uint64] reinterpret the
      two's-complement bits ([int_of_uint64], [uint64_of_int]).
    - Go's [string] and [[]byte] are byte sequences: Rocq's [string].
    - A Go function that returns [(value, error)] returns a [result];
      a run-time panic is an outcome of its own. *)

From Stdlib Require Import ZArith Lia List Ascii String.
From stdpp Require Import gmap strings.

Local Open Scope string_scope.
Local Open Scope Z_scope.

(** ** Machine integers *)

Module MachineInt.

Definition two64 : Z := 2 ^ 64.
Definition two63 : Z := 2 ^ 63.

Definition maxUint64 : Z := two64 - 1.
Definition maxInt64 : Z := two63 - 1.
Definition minInt64 : Z := - two63.

(** Reduction of an integer result to the [uint64] it is stored in. *)
Definition u64 (z : Z) : Z := z mod two64.

(** The values of the two types. *)
Definition is_uint64 (z : Z) : Prop := 0 <= z < two64.
Definition is_int64 (z : Z) : Prop := minInt64 <= z <= maxInt64.

(** [int(x)] and [int64(x)] for [x : uint64]. *)
Definition int_of_uint64 (x : Z) : Z :=
  if x <? two63 then x else x - two64.

(** [uint64(i)] for [i : int] or [i : int64]. *)
Definition uint64_of_int (i : Z) : Z := i mod two64.

End MachineInt.
Export MachineInt.

(** ** Errors and results *)

(** [strconv.ErrSyntax] and [strconv.ErrRange]. *)
Inductive NumErrKind : Type := ErrSyntax | ErrRange.

(** [Errorf] keeps the format and the arguments of [fmt.Errorf] apart: the
    verbs [%s] and [%v] insert the argument's text as it is. *)
Inductive error : Type :=
| ErrEOF                                             (* sdk.ErrEOF *)
| NumError (Func Num : string) (Err : NumErrKind)    (* *strconv.NumError *)
| Errorf (format : string) (args : list fmt_arg)     (* fmt.Errorf(format, args...) *)
| HostError (msg : string)   (* an error of a reader, writer or decoder of the host *)
with fmt_arg : Type :=
| ArgString (s : string)
| ArgError (e : error).

Inductive result (A : Type) : Type :=
| Ok (a : A)
| Err (e : error).
Arguments Ok {A} a.
Arguments Err {A} e.

(** ** [strconv]: decimal rendering and parsing

    The [strconv] package belongs to the Go standard library; [Itoa] and
    [Atoi] follow its implementation for base 10 and 64-bit [int]. *)

Module strconv.

Definition byte_of (c : ascii) : Z := Z.of_nat (nat_of_ascii c).
Definition digit_char (d : Z) : ascii := ascii_of_nat (Z.to_nat (48 + d)).

Definition is_digit (c : ascii) : bool :=
  (48 <=? byte_of c) && (byte_of c <=? 57).

(** [formatBits] for base 10: the digits of [u], most significant first, in
    front of [acc].  A [uint64] has at most 20 digits. *)
Fixpoint formatBits (fuel : nat) (u : Z) (acc : string) : string :=
  match fuel with
  | O => acc
  | S fuel' =>
      if u <? 10 then String (digit_char u) acc
      else formatBits fuel' (u / 10) (String (digit_char (u mod 10)) acc)
  end.

Definition FormatUint (u : Z) : string := formatBits 20 u "".

(** [FormatInt(i, 10)]: a minus sign and the digits of [-i] when [i < 0]. *)
Definition FormatInt (i : Z) : string :=
  if i <? 0 then String "-" (FormatUint (- i)) else FormatUint i.

Definition Itoa (i : Z) : string := FormatInt i.

Definition syntaxError (fn str : string) : error := NumError fn str ErrSyntax.
Definition rangeError (fn str : string) : error := NumError fn str ErrRange.

(** The cutoff of [ParseUint]: the least [n] with [n * 10 > maxUint64]. *)
Definition cutoff10 : Z := maxUint64 / 10 + 1.

(** The loop of [ParseUint(s, 10, 64)] from the accumulator [n]. *)
Fixpoint ParseUint_loop (s0 s : string) (n : Z) : result Z :=
  match s with
  | EmptyString => Ok n
  | String c rest =>
      if is_digit c then
        let d := byte_of c - 48 in
        if cutoff10 <=? n then Err (rangeError "ParseUint" s0)
        else
          let n10 := u64 (n * 10) in
          let n1 := u64 (n10 + d) in
          if (n1 <? n10) || (maxUint64 <? n1)
          then Err (rangeError "ParseUint" s0)
          else ParseUint_loop s0 rest n1
      else Err (syntaxError "ParseUint" s0)
  end.

Definition ParseUint (s : string) : result Z :=
  match s with
  | EmptyString => Err (syntaxError "ParseUint" s)
  | _ => ParseUint_loop s s 0
  end.

(** [ParseInt(s, 10, 0)]; the function and the quoted text of the error are
    those of the caller [fn] ([Atoi] rewrites [Func] after the call). *)
Definition ParseInt (fn : string) (s : string) : result Z :=
  match s with
  | EmptyString => Err (syntaxError fn s)
  | String c rest =>
      let '(neg, body) :=
        if Ascii.eqb c "+" then (false, rest)
        else if Ascii.eqb c "-" then (true, rest)
        else (false, s) in
      match ParseUint body with
      | Err (NumError _ _ ErrRange) => Err (rangeError fn s)
      | Err _ => Err (syntaxError fn s)
      | Ok un =>
          if negb neg && (two63 <=? un) then Err (rangeError fn s)
          else if neg && (two63 <? un) then Err (rangeError fn s)
          else
            let n := int_of_uint64 un in
            Ok (if neg then int_of_uint64 (u64 (- n)) else n)
      end
  end.

(** The digit loop of the fast path of [Atoi]; it only runs on fewer than
    19 bytes, where [n*10 + d] cannot leave [int]. *)
Fixpoint Atoi_fast_loop (s0 s : string) (n : Z) : result Z :=
  match s with
  | EmptyString => Ok n
  | String ch rest =>
      let d := (byte_of ch - 48) mod 256 in   (* ch -= '0' on a byte *)
      if 9 <? d then Err (syntaxError "Atoi" s0)
      else Atoi_fast_loop s0 rest (n * 10 + d)
  end.

Definition Atoi (s : string) : result Z :=
  let sLen := Z.of_nat (String.length s) in
  if (0 <? sLen) && (sLen <? 19) then
    match s with
    | EmptyString => Err (syntaxError "Atoi" s)
    | String c rest =>
        let signed := Ascii.eqb c "-" || Ascii.eqb c "+" in
        let body := if signed then rest else s in
        if signed && (Z.of_nat (String.length body) <? 1)
        then Err (syntaxError "Atoi" s)
        else
          match Atoi_fast_loop s body 0 with
          | Err e => Err e
          | Ok n => Ok (if Ascii.eqb c "-" then - n else n)
          end
    end
  else ParseInt "Atoi" s.

End strconv.

(** ** [math/rand]

    The random source of the standard library is not part of the plugin.
    [Int63n] is taken by its contract: it panics when [n <= 0] and returns a
    value of [[0, n)] otherwise.  A source is described call by call, not raw
    value by raw value: [draws r i] stands for what is behind the [i]-th call
    made on the source, however many 63-bit values the rejection loop of the
    library takes for it, and [cursor r] counts the calls made so far.  The
    result of a call is that value reduced to the interval, so every value of
    the interval can come out and no other. *)

Module rand.

Record Rand : Type := { draws : nat -> Z; cursor : nat }.

Definition advance (r : Rand) : Rand :=
  {| draws := draws r; cursor := S (cursor r) |}.

(** [None] is the panic "invalid argument to Int63n". *)
Definition Int63n (r : Rand) (n : Z) : option (Z * Rand) :=
  if n <=? 0 then None
  else Some (draws r (cursor r) mod n, advance r).

End rand.

(** ** The interfaces of the plugin SDK *)

Module sdk.

(** An event slot of the host.  [Write] is [evt.Writer().Write(bytes)]; the
    byte count it returns is dropped by the plugin.  The timestamp the plugin
    sets on the slot comes from the wall clock and is left out. *)
Record EventWriter : Type := { Write : string -> option error }.

(** [sdk.EventWriters]: [Len()] is the length, [Get(n)] the [n]-th slot. *)
Definition EventWriters : Type := list EventWriter.

(** A byte stream of the host, by what [ioutil.ReadAll] gets out of it: the
    bytes read, and the error the read stopped on, if any. *)
Record Reader : Type := { content : string; failure : option error }.

Record EventReader : Type := { reader : Reader }.

(** The part of [sdk.ExtractRequest] the plugin reads. *)
Record ExtractRequest : Type :=
  { FieldID : Z; Field : string; Arg : string }.

(** What [req.SetValue] was given. *)
Inductive FieldValue : Type :=
| Uint64Value (v : Z)
| StringValue (s : string).

Record FieldEntry : Type :=
  { Type_ : string; Name : string; ArgRequired : bool; Desc : string }.

End sdk.

Module ioutil.

Definition ReadAll (r : sdk.Reader) : string * option error :=
  (sdk.content r, sdk.failure r).

End ioutil.

(** A call either returns or panics. *)
Inductive outcome (A : Type) : Type :=
| Returned (a : A)
| Panicked (msg : string).
Arguments Returned {A} a.
Arguments Panicked {A} msg.

(** ** The plugin

    The embedded [plugins.BasePlugin] and [source.BaseInstance] hold what the
    SDK keeps for itself and are left out of the two records. *)

Record MyPlugin : Type :=
  { jitter : Z;           (* uint64 *)
    rand : rand.Rand }.

Record MyInstance : Type :=
  { initParams : string;
    maxEvents : Z;        (* uint64: the number of events to return before EOF *)
    counter : Z;          (* uint64: a count of events returned *)
    sample : Z }.         (* uint64 *)

Definition set_counter (m : MyInstance) (c : Z) : MyInstance :=
  {| initParams := initParams m; maxEvents := maxEvents m;
     counter := c; sample := sample m |}.

Definition set_sample (m : MyInstance) (s : Z) : MyInstance :=
  {| initParams := initParams m; maxEvents := maxEvents m;
     counter := counter m; sample := s |}.

Definition set_rand (p : MyPlugin) (r : rand.Rand) : MyPlugin :=
  {| jitter := jitter p; rand := r |}.

Section Plugin.

(** [json.Unmarshal] into a [map[string]uint64]. *)
Variable json_Unmarshal : string -> result (gmap string Z).

(** [Init]: [seeded] is the source that
    [rand.New(rand.NewSource(time.Now().UnixNano()))] makes. *)
Definition Init (seeded : rand.Rand) (m : MyPlugin) (cfg : string)
  : MyPlugin * option error :=
  let jitter0 := 10 in
  if negb (String.eqb cfg "") && negb (String.eqb cfg "{}") then
    match json_Unmarshal cfg with
    | Err err => (m, Some err)
    | Ok obj =>
        let jitter1 :=
          match obj !! "jitter" with
          | Some j => j
          | None => jitter0
          end in
        ({| jitter := jitter1; rand := seeded |}, None)
    end
  else ({| jitter := jitter0; rand := seeded |}, None).

Definition Open (prms : string) : result MyInstance :=
  match json_Unmarshal prms with
  | Err err =>
      Err (Errorf "params %s could not be parsed: %v"
             [ArgString prms; ArgError err])
  | Ok obj =>
      match obj !! "start" with
      | None =>
          Err (Errorf "params %s did not contain start property"
                 [ArgString prms])
      | Some start =>
          match obj !! "maxEvents" with
          | None =>
              Err (Errorf "params %s did not contain maxEvents property"
                     [ArgString prms])
          | Some maxEv =>
              Ok {| initParams := prms; maxEvents := maxEv;
                    counter := 0; sample := start |}
          end
      end
  end.

End Plugin.

(** ** [NextBatch] *)

(** The state a call of [NextBatch] leaves behind and what the host sees of
    it: what the call returned, the instance, the random source of the plugin,
    and the payloads written to the slots, in slot order. *)
Record Batch : Type :=
  { ret : outcome (Z * option error);
    inst : MyInstance;
    rnd : rand.Rand;
    written : list string }.

(** The [for] loop from slot [n] on; [evts] are the slots [n, n+1, ...] still
    ahead, so that the loop test [n < evts.Len()] is [evts <> []]. *)
Fixpoint NextBatch_loop (jit : Z) (evts : sdk.EventWriters) (n : Z)
    (m : MyInstance) (r : rand.Rand) (out : list string) : Batch :=
  match evts with
  | [] => {| ret := Returned (n, None); inst := m; rnd := r; written := out |}
  | evt :: evts' =>
      if counter m <? maxEvents m then
        let m1 := set_counter m (u64 (counter m + 1)) in
        match rand.Int63n r (int_of_uint64 (u64 (jit + 1))) with
        | None =>
            {| ret := Panicked "invalid argument to Int63n";
               inst := m1; rnd := r; written := out |}
        | Some (v, r') =>
            let m2 :=
              set_sample m1 (u64 (sample m1 + u64 (1 + uint64_of_int v))) in
            let str := strconv.Itoa (int_of_uint64 (sample m2)) in
            match sdk.Write evt str with
            | Some err =>
                {| ret := Returned (0, Some err);
                   inst := m2; rnd := r'; written := out |}
            | None => NextBatch_loop jit evts' (n + 1) m2 r' (out ++ [str])
            end
        end
      else {| ret := Returned (n, None); inst := m; rnd := r; written := out |}
  end.

Definition NextBatch (m : MyInstance) (pState : MyPlugin)
    (evts : sdk.EventWriters) : Batch :=
  if maxEvents m <=? counter m then
    {| ret := Returned (0, Some ErrEOF);
       inst := m; rnd := rand pState; written := [] |}
  else NextBatch_loop (jitter pState) evts 0 m (rand pState) [].

(** ** A host driving one session

    The host calls [NextBatch] once per element of [batches], with the slots of
    that element, and stops at a panic.  The result lists every call made. *)
Fixpoint drive (p : MyPlugin) (m : MyInstance)
    (batches : list sdk.EventWriters) : list Batch :=
  match batches with
  | [] => []
  | evts :: rest =>
      let b := NextBatch m p evts in
      match ret b with
      | Panicked _ => [b]
      | Returned _ => b :: drive (set_rand p (rnd b)) (inst b) rest
      end
  end.

(** The count a call reported to the host. *)
Definition reported (b : Batch) : Z :=
  match ret b with
  | Returned (n, _) => n
  | Panicked _ => 0
  end.

Definition total_reported (bs : list Batch) : Z :=
  fold_right (fun b acc => reported b + acc) 0 bs.

Definition all_written (bs : list Batch) : list string :=
  flat_map written bs.

(** The instance and the source after the calls [bs] made from [m] and [p]. *)
Definition final_inst (m : MyInstance) (bs : list Batch) : MyInstance :=
  List.last (map inst bs) m.

Definition capacity (batches : list sdk.EventWriters) : Z :=
  fold_right (fun evts acc => Z.of_nat (length evts) + acc) 0 batches.

(** Slots that accept every payload. *)
Definition accepts_all (evt : sdk.EventWriter) : Prop :=
  forall bytes, sdk.Write evt bytes = None.

(** The states of a session: the one [Open] returned, and the one any call of
    [NextBatch] leaves, whatever the slots and the state of the source. *)
Inductive session (jit : Z) (m0 : MyInstance) : MyInstance -> Prop :=
| session_opened : session jit m0 m0
| session_batch (m : MyInstance) (p : MyPlugin) (evts : sdk.EventWriters) :
    session jit m0 m ->
    jitter p = jit ->
    session jit m0 (inst (NextBatch m p evts)).

(** ** [String], [Fields] and [Extract] *)

Definition quote : string := String "034" "".

(** [fmt.Sprintf] of the format [{"sample": "%s"}] with the string [evtStr]. *)
Definition Sprintf_sample (evtStr : string) : string :=
  "{" ++ quote ++ "sample" ++ quote ++ ": " ++ quote ++ evtStr ++ quote ++ "}".

(** The method [String]; the name is taken in Rocq by the constructor of
    [string]. *)
Definition String_ (in_ : sdk.Reader) : string * option error :=
  let '(evtBytes, err) := ioutil.ReadAll in_ in
  match err with
  | Some e => ("", Some e)
  | None => (Sprintf_sample evtBytes, None)
  end.

Definition Fields : list sdk.FieldEntry :=
  [ {| sdk.Type_ := "uint64"; sdk.Name := "dummy.divisible";
       sdk.ArgRequired := true;
       sdk.Desc := "Return 1 if the value is divisible by the provided divisor, 0 otherwise" |};
    {| sdk.Type_ := "uint64"; sdk.Name := "dummy.value";
       sdk.ArgRequired := false;
       sdk.Desc := "The sample value in the event" |};
    {| sdk.Type_ := "string"; sdk.Name := "dummy.strvalue";
       sdk.ArgRequired := false;
       sdk.Desc := "The sample value in the event, as a string" |} ].

(** What a call of [Extract] did: the value it set on the request, if it set
    one, and the error it returned; or the panic it ended in. *)
Definition Extraction : Type := outcome (option sdk.FieldValue * option error).

Definition set_value (v : sdk.FieldValue) : Extraction := Returned (Some v, None).
Definition fail_with (e : error) : Extraction := Returned (None, Some e).

(** Go's [%] on [int] truncates towards zero ([Z.rem]) and panics on a zero
    divisor. *)
Definition Extract (req : sdk.ExtractRequest) (evt : sdk.EventReader)
  : Extraction :=
  let '(evtBytes, err) := ioutil.ReadAll (sdk.reader evt) in
  match err with
  | Some e => fail_with e
  | None =>
      let evtStr := evtBytes in
      match strconv.Atoi evtStr with
      | Err e => fail_with e
      | Ok evtVal =>
          if sdk.FieldID req =? 0 then
            let arg := sdk.Arg req in
            match strconv.Atoi arg with
            | Err _ =>
                fail_with
                  (Errorf "argument to dummy.divisible %s could not be converted to number"
                     [ArgString arg])
            | Ok divisor =>
                if divisor =? 0 then Panicked "integer divide by zero"
                else if Z.rem evtVal divisor =? 0
                     then set_value (sdk.Uint64Value 1)
                     else set_value (sdk.Uint64Value 0)
            end
          else if sdk.FieldID req =? 1 then
            set_value (sdk.Uint64Value (uint64_of_int evtVal))
          else if sdk.FieldID req =? 2 then
            set_value (sdk.StringValue evtStr)
          else
            fail_with (Errorf "no known field: %s" [ArgString (sdk.Field req)])
      end
  end.

(** An event whose payload is [bytes] and whose stream reads without error. *)
Definition event_of (bytes : string) : sdk.EventReader :=
  {| sdk.reader := {| sdk.content := bytes; sdk.failure := None |} |}.

(** ** Decimal numerals *)

(** The number a string of decimal digits writes, read from the left after
    the digits of [n]. *)
Fixpoint decimal_value (s : string) (n : Z) : Z :=
  match s with
  | EmptyString => n
  | String c rest => decimal_value rest (n * 10 + (strconv.byte_of c - 48))
  end.

Fixpoint all_digits (s : string) : bool :=
  match s with
  | EmptyString => true
  | String c rest => strconv.is_digit c && all_digits rest
  end.

(** An unsigned decimal numeral: one digit at least, digits only. *)
Definition is_numeral (s : string) : Prop :=
  s <> "" /\ all_digits s = true.

(** A canonical one: no sign, and no leading zero unless it is ["0"]. *)
Definition is_canonical_numeral (s : string) : Prop :=
  is_numeral s /\
  match s with
  | String "0" (String _ _) => False
  | _ => True
  end.

(** ** Notions for the statements *)

(** The jitter bounds for which [int64(jitter+1)] is positive. *)
Definition valid_jitter (J : Z) : Prop := 0 <= J < maxInt64.

(** The batch of an exhausted session: nothing is drawn and nothing written. *)
Definition eof (m : MyInstance) (p : MyPlugin) : Batch :=
  {| ret := Returned (0, Some ErrEOF); inst := m; rnd := rand p; written := [] |}.

(** A call that returned no error, or the end of the stream. *)
Definition returned_normally (b : Batch) : Prop :=
  exists n, ret b = Returned (n, None) \/ ret b = Returned (0, Some ErrEOF).

(** The payload the loop writes for the sample [x]. *)
Definition payload_of (x : Z) : string := strconv.Itoa (int_of_uint64 x).

(** [jittered J s l]: every sample of [l] is its predecessor, [s] for the
    first one, plus [1 + r] modulo [2^64], for some [0 <= r <= J]. *)
Fixpoint jittered (J s : Z) (l : list Z) : Prop :=
  match l with
  | [] => True
  | x :: l' => (exists r, 0 <= r <= J /\ x = u64 (s + (1 + r))) /\ jittered J x l'
  end.

Definition value_request : sdk.ExtractRequest :=
  {| sdk.FieldID := 1; sdk.Field := "dummy.value"; sdk.Arg := "" |}.

(** What holds of every state of a session opened for [M] events. *)
Definition well_formed (M : Z) (m : MyInstance) : Prop :=
  maxEvents m = M /\ 0 <= counter m <= M /\ is_uint64 (sample m).

(** The most [sample] can have grown to after [counter] productions. *)
Definition within_budget (S J : Z) (m : MyInstance) : Prop :=
  sample m <= S + counter m * (J + 1).

(** ** Concrete hosts and sessions *)

Module Fixtures.

(** A slot that takes every write, and one that refuses every write. *)
Definition accepting : sdk.EventWriter := {| sdk.Write := fun _ => None |}.
Definition refusing : sdk.EventWriter :=
  {| sdk.Write := fun _ => Some (HostError "short write") |}.

(** The text [{"start": S, "maxEvents": M}] and a decoder that knows it. *)
Definition params (start maxEv : Z) : string :=
  "{" ++ quote ++ "start" ++ quote ++ ": " ++ strconv.FormatUint start ++ ", "
      ++ quote ++ "maxEvents" ++ quote ++ ": " ++ strconv.FormatUint maxEv ++ "}".

Definition decoder (start maxEv : Z) (text : string) : result (gmap string Z) :=
  if String.eqb text (params start maxEv)
  then Ok (<["start" := start]> (<["maxEvents" := maxEv]> ∅))
  else Err (HostError "invalid character").

Definition opened (start maxEv : Z) : MyInstance :=
  {| initParams := params start maxEv; maxEvents := maxEv;
     counter := 0; sample := start |}.

(** A random source and a plugin configured with the jitter [J]. *)
Definition source : rand.Rand :=
  {| rand.draws := fun i => Z.of_nat i * 7 + 3; rand.cursor := 0 |}.

Definition plugin (J : Z) : MyPlugin := {| jitter := J; rand := source |}.

Definition request (id : Z) (name arg : string) : sdk.ExtractRequest :=
  {| sdk.FieldID := id; sdk.Field := name; sdk.Arg := arg |}.

End Fixtures.

(** ** Further notions for the statements *)

(** The random source after the calls [bs] made from the plugin state [p]. *)
Definition final_rand (p : MyPlugin) (bs : list Batch) : rand.Rand :=
  List.last (map rnd bs) (rand p).

(** A batch seen from a loop that had already counted [n] events and written
    [out]: the count of a return without error grows by [n], the payloads
    follow [out]. *)
Definition shift (n : Z) (out : list string) (b : Batch) : Batch :=
  {| ret := match ret b with
            | Returned (k, None) => Returned (n + k, None)
            | other => other
            end;
     inst := inst b; rnd := rnd b; written := (out ++ written b)%list |}.

(** The samples of the next [k] events of a session at the sample [s], with
    the jitter [J] and the source [r]: each is its predecessor plus one plus
    what [Int63n (J + 1)] returns on the source, modulo [2^64]. *)
Fixpoint samples_from (J : Z) (r : rand.Rand) (s : Z) (k : nat) : list Z :=
  match k with
  | O => []
  | S k' =>
      let v := rand.draws r (rand.cursor r) mod (J + 1) in
      let s' := u64 (s + (1 + v)) in
      s' :: samples_from J (rand.advance r) s' k'
  end.

(** A source whose next call yields [k]. *)
Definition source_yielding (k : Z) : rand.Rand :=
  {| rand.draws := fun _ => k; rand.cursor := 0 |}.

(** A slot whose writer never reports the end of the stream. *)
Definition never_eof (evt : sdk.EventWriter) : Prop :=
  forall bytes, sdk.Write evt bytes <> Some ErrEOF.

Definition strvalue_request : sdk.ExtractRequest :=
  {| sdk.FieldID := 2; sdk.Field := "dummy.strvalue"; sdk.Arg := "" |}.

Definition divisible_request (arg : string) : sdk.ExtractRequest :=
  {| sdk.FieldID := 0; sdk.Field := "dummy.divisible"; sdk.Arg := arg |}.

(** The request [req] with another argument. *)
Definition with_arg (req : sdk.ExtractRequest) (arg : string) : sdk.ExtractRequest :=
  {| sdk.FieldID := sdk.FieldID req; sdk.Field := sdk.Field req; sdk.Arg := arg |}.

(** The name [Fields] gives to the type of a value. *)
Definition type_name (v : sdk.FieldValue) : string :=
  match v with
  | sdk.Uint64Value _ => "uint64"
  | sdk.StringValue _ => "string"
  end.

(** A stream that reads [bytes] without error. *)
Definition readable (bytes : string) : sdk.Reader :=
  {| sdk.content := bytes; sdk.failure := None |}.

(** * Verification *)

(** ** Machine integers *)

Ltac ints :=
  unfold is_uint64, is_int64, maxUint64, maxInt64, minInt64, two64, two63 in *.

Lemma u64_range (z : Z) : is_uint64 (u64 z).
Proof. unfold u64; ints. apply Z.mod_pos_bound. lia. Qed.

Lemma u64_small (z : Z) : is_uint64 z -> u64 z = z.
Proof. unfold u64; ints. intros H. apply Z.mod_small. lia. Qed.

Lemma u64_add_l (a b : Z) : u64 (u64 a + b) = u64 (a + b).
Proof. unfold u64. apply Zplus_mod_idemp_l. Qed.

Lemma u64_add_r (a b : Z) : u64 (a + u64 b) = u64 (a + b).
Proof. unfold u64. apply Zplus_mod_idemp_r. Qed.

Lemma u64_le (z : Z) : 0 <= z -> u64 z <= z.
Proof. unfold u64; ints. intros H. apply Z.mod_le; lia. Qed.

Lemma int_of_uint64_range (x : Z) : is_uint64 x -> is_int64 (int_of_uint64 x).
Proof.
  unfold int_of_uint64. ints. intros H.
  destruct (Z.ltb_spec x (2 ^ 63)); lia.
Qed.

(** Converting a [uint64] to [int] and back gives the same [uint64]. *)
Lemma uint64_of_int_of_uint64 (x : Z) :
  is_uint64 x -> uint64_of_int (int_of_uint64 x) = x.
Proof.
  unfold uint64_of_int, int_of_uint64. ints. intros H.
  destruct (Z.ltb_spec x (2 ^ 63)).
  - apply Z.mod_small. lia.
  - replace (x - 2 ^ 64) with (x + (-1) * 2 ^ 64) by lia.
    rewrite Z_mod_plus_full. apply Z.mod_small. lia.
Qed.

Lemma uint64_of_int_nonneg (i : Z) : 0 <= i <= maxInt64 -> uint64_of_int i = i.
Proof. unfold uint64_of_int. ints. intros H. apply Z.mod_small. lia. Qed.

Lemma uint64_of_int_neg (i : Z) :
  minInt64 <= i < 0 -> uint64_of_int i = i + two64.
Proof.
  unfold uint64_of_int. ints. intros H.
  replace i with ((i + 2 ^ 64) + (-1) * 2 ^ 64) at 1 by lia.
  rewrite Z_mod_plus_full. apply Z.mod_small. lia.
Qed.

(** ** [strconv] *)

Module strconv_facts.
Import strconv.

Lemma byte_of_digit_char (d : Z) :
  0 <= d <= 9 -> byte_of (digit_char d) = 48 + d.
Proof.
  intros H. unfold byte_of, digit_char.
  rewrite nat_ascii_embedding by lia. lia.
Qed.

Lemma is_digit_spec (c : ascii) :
  is_digit c = true <-> 0 <= byte_of c - 48 <= 9.
Proof.
  unfold is_digit. rewrite andb_true_iff, !Z.leb_le. lia.
Qed.

Lemma is_digit_digit_char (d : Z) : 0 <= d <= 9 -> is_digit (digit_char d) = true.
Proof. intros H. apply is_digit_spec. rewrite byte_of_digit_char; lia. Qed.

Lemma digit_not_sign (c : ascii) :
  is_digit c = true -> Ascii.eqb c "-" = false /\ Ascii.eqb c "+" = false.
Proof.
  intros H. apply is_digit_spec in H.
  split; apply Ascii.eqb_neq; intros ->.
  - change (byte_of "-") with 45 in H. lia.
  - change (byte_of "+") with 43 in H. lia.
Qed.

(** *** Rendering *)

Lemma formatBits_value (fuel : nat) : forall (u : Z) (acc : string),
  0 <= u < 10 ^ Z.of_nat fuel ->
  decimal_value (formatBits fuel u acc) 0 = decimal_value acc u.
Proof.
  induction fuel as [|fuel IH]; intros u acc Hu.
  - simpl in *. replace u with 0 by lia. reflexivity.
  - cbn [formatBits]. destruct (Z.ltb_spec u 10) as [Hlt|Hge].
    + cbn [decimal_value]. rewrite byte_of_digit_char by lia. f_equal. lia.
    + rewrite IH.
      * cbn [decimal_value].
        rewrite byte_of_digit_char by (pose proof (Z.mod_pos_bound u 10); lia).
        f_equal. pose proof (Z.div_mod u 10). lia.
      * rewrite Nat2Z.inj_succ, Z.pow_succ_r in Hu by lia.
        split; [apply Z.div_pos; lia | apply Z.div_lt_upper_bound; lia].
Qed.

Lemma formatBits_digits (fuel : nat) : forall (u : Z) (acc : string),
  0 <= u -> all_digits acc = true -> all_digits (formatBits fuel u acc) = true.
Proof.
  induction fuel as [|fuel IH]; intros u acc Hu Hacc; [exact Hacc|].
  cbn [formatBits]. destruct (Z.ltb_spec u 10) as [Hlt|Hge].
  - cbn [all_digits]. rewrite is_digit_digit_char by lia. exact Hacc.
  - apply IH; [apply Z.div_pos; lia|].
    cbn [all_digits]. rewrite is_digit_digit_char; [exact Hacc|].
    pose proof (Z.mod_pos_bound u 10); lia.
Qed.

(** The first digit of a positive number is not a zero. *)
Lemma formatBits_head (fuel : nat) : forall (u : Z) (acc : string),
  0 < u < 10 ^ Z.of_nat fuel ->
  exists c rest, formatBits fuel u acc = String c rest /\ c <> "0"%char.
Proof.
  induction fuel as [|fuel IH]; intros u acc Hu.
  - simpl in Hu. lia.
  - cbn [formatBits]. destruct (Z.ltb_spec u 10) as [Hlt|Hge].
    + eexists _, _. split; [reflexivity|].
      intros E. apply (f_equal byte_of) in E.
      rewrite byte_of_digit_char in E by lia.
      change (byte_of "0") with 48 in E. lia.
    + apply IH. rewrite Nat2Z.inj_succ, Z.pow_succ_r in Hu by lia.
      split; [apply Z.div_str_pos; lia | apply Z.div_lt_upper_bound; lia].
Qed.

Lemma uint64_fits_20_digits (u : Z) : is_uint64 u -> 0 <= u < 10 ^ Z.of_nat 20.
Proof. ints. intros H. change (10 ^ Z.of_nat 20) with 100000000000000000000. lia. Qed.

Lemma FormatUint_value (u : Z) : is_uint64 u -> decimal_value (FormatUint u) 0 = u.
Proof.
  intros H. unfold FormatUint.
  rewrite formatBits_value by (apply uint64_fits_20_digits, H). reflexivity.
Qed.

Lemma FormatUint_canonical (u : Z) :
  is_uint64 u -> is_canonical_numeral (FormatUint u).
Proof.
  intros H. pose proof (uint64_fits_20_digits u H) as H20.
  assert (Hd : all_digits (FormatUint u) = true)
    by (apply formatBits_digits; [lia | reflexivity]).
  destruct (Z.eq_dec u 0) as [->|Hne].
  - repeat split; try discriminate; exact Hd.
  - destruct (formatBits_head 20 u "") as (c & rest & E & Hc); [lia|].
    unfold FormatUint in *. rewrite E in *.
    repeat split; try discriminate; try exact Hd.
    destruct c as [[] [] [] [] [] [] [] []]; try exact I.
    destruct rest; [exact I | apply Hc; reflexivity].
Qed.

(** *** Parsing *)

Lemma decimal_value_mono (s : string) : forall n : Z,
  all_digits s = true -> 0 <= n -> n <= decimal_value s n.
Proof.
  induction s as [|c s IH]; intros n Hd Hn; cbn [decimal_value]; [lia|].
  cbn [all_digits] in Hd. apply andb_true_iff in Hd as [Hc Hs].
  apply is_digit_spec in Hc.
  specialize (IH (n * 10 + (byte_of c - 48)) Hs). lia.
Qed.

Lemma decimal_value_bound (s : string) : forall n : Z,
  all_digits s = true -> 0 <= n ->
  decimal_value s n < (n + 1) * 10 ^ Z.of_nat (String.length s).
Proof.
  induction s as [|c s IH]; intros n Hd Hn; cbn [decimal_value String.length].
  - simpl. lia.
  - cbn [all_digits] in Hd. apply andb_true_iff in Hd as [Hc Hs].
    apply is_digit_spec in Hc.
    specialize (IH (n * 10 + (byte_of c - 48)) Hs).
    rewrite Nat2Z.inj_succ, Z.pow_succ_r by lia.
    assert (0 < 10 ^ Z.of_nat (String.length s)) by (apply Z.pow_pos_nonneg; lia).
    nia.
Qed.

Lemma ParseUint_loop_spec (s0 s : string) : forall n : Z,
  all_digits s = true -> is_uint64 n ->
  ParseUint_loop s0 s n =
    if decimal_value s n <? two64 then Ok (decimal_value s n)
    else Err (rangeError "ParseUint" s0).
Proof.
  induction s as [|c s IH]; intros n Hd Hn; cbn [ParseUint_loop decimal_value].
  - destruct (Z.ltb_spec n two64); [reflexivity | ints; lia].
  - cbn [all_digits] in Hd. apply andb_true_iff in Hd as [Hc Hs].
    rewrite Hc. apply is_digit_spec in Hc.
    pose proof (decimal_value_mono s (n * 10 + (byte_of c - 48)) Hs) as Hm.
    change cutoff10 with 1844674407370955162.
    destruct (Z.leb_spec 1844674407370955162 n) as [Hcut|Hcut].
    + destruct (Z.ltb_spec (decimal_value s (n * 10 + (byte_of c - 48))) two64);
        [ints; lia | reflexivity].
    + assert (E10 : u64 (n * 10) = n * 10) by (apply u64_small; ints; lia).
      rewrite E10.
      destruct (Z.lt_ge_cases (n * 10 + (byte_of c - 48)) two64) as [Hfit|Hover].
      * assert (E1 : u64 (n * 10 + (byte_of c - 48)) = n * 10 + (byte_of c - 48))
          by (apply u64_small; ints; lia).
        rewrite E1.
        replace (n * 10 + (byte_of c - 48) <? n * 10) with false
          by (symmetry; apply Z.ltb_ge; lia).
        replace (maxUint64 <? n * 10 + (byte_of c - 48)) with false
          by (symmetry; apply Z.ltb_ge; ints; lia).
        cbn [orb]. apply IH; [exact Hs | ints; lia].
      * assert (E1 : u64 (n * 10 + (byte_of c - 48))
                     = n * 10 + (byte_of c - 48) - two64).
        { unfold u64.
          replace (n * 10 + (byte_of c - 48))
            with ((n * 10 + (byte_of c - 48) - two64) + 1 * two64) at 1 by lia.
          rewrite Z_mod_plus_full. apply Z.mod_small. ints; lia. }
        rewrite E1.
        replace (n * 10 + (byte_of c - 48) - two64 <? n * 10) with true
          by (symmetry; apply Z.ltb_lt; ints; lia).
        cbn [orb].
        destruct (Z.ltb_spec (decimal_value s (n * 10 + (byte_of c - 48))) two64);
          [ints; lia | reflexivity].
Qed.

Lemma Atoi_fast_loop_spec (s0 s : string) : forall n : Z,
  all_digits s = true -> Atoi_fast_loop s0 s n = Ok (decimal_value s n).
Proof.
  induction s as [|c s IH]; intros n Hd; cbn [Atoi_fast_loop decimal_value];
    [reflexivity|].
  cbn [all_digits] in Hd. apply andb_true_iff in Hd as [Hc Hs].
  apply is_digit_spec in Hc.
  rewrite (Z.mod_small (byte_of c - 48) 256) by lia.
  replace (9 <? byte_of c - 48) with false by (symmetry; apply Z.ltb_ge; lia).
  apply IH, Hs.
Qed.

Lemma ParseUint_numeral (s : string) :
  is_numeral s ->
  ParseUint s = if decimal_value s 0 <? two64 then Ok (decimal_value s 0)
                else Err (rangeError "ParseUint" s).
Proof.
  intros [Hne Hd]. destruct s as [|c s]; [congruence|].
  unfold ParseUint. apply ParseUint_loop_spec; [exact Hd | ints; lia].
Qed.

(** A numeral of fewer than 19 digits is below [10^18]. *)
Lemma short_numeral_small (s : string) :
  all_digits s = true -> Z.of_nat (String.length s) < 19 ->
  0 <= decimal_value s 0 < 10 ^ 18.
Proof.
  intros Hd Hlen. split; [apply decimal_value_mono; [exact Hd | lia]|].
  pose proof (decimal_value_bound s 0 Hd ltac:(lia)) as Hb.
  assert (10 ^ Z.of_nat (String.length s) <= 10 ^ 18)
    by (apply Z.pow_le_mono_r; lia).
  lia.
Qed.

(** [Atoi] on an unsigned numeral: its value, unless it exceeds [maxInt64]. *)
Lemma Atoi_numeral (s : string) :
  is_numeral s ->
  Atoi s = if decimal_value s 0 <? two63 then Ok (decimal_value s 0)
           else Err (rangeError "Atoi" s).
Proof.
  intros Hnum. pose proof Hnum as [Hne Hd].
  destruct s as [|c s]; [congruence|].
  pose proof Hd as Hd'. cbn [all_digits] in Hd'.
  apply andb_true_iff in Hd' as [Hc _].
  destruct (digit_not_sign c Hc) as [Hm Hp].
  unfold Atoi.
  destruct ((0 <? Z.of_nat (String.length (String c s)))
            && (Z.of_nat (String.length (String c s)) <? 19)) eqn:Hfast.
  - apply andb_true_iff in Hfast as [_ Hlen]. apply Z.ltb_lt in Hlen.
    rewrite Hm, Hp. cbn [orb andb].
    rewrite Atoi_fast_loop_spec by exact Hd.
    pose proof (short_numeral_small _ Hd Hlen) as Hs.
    destruct (Z.ltb_spec (decimal_value (String c s) 0) two63);
      [reflexivity | ints; lia].
  - unfold ParseInt. rewrite Hm, Hp.
    rewrite (ParseUint_numeral _ Hnum).
    pose proof (decimal_value_mono _ 0 Hd ltac:(lia)) as H0.
    destruct (Z.ltb_spec (decimal_value (String c s) 0) two64) as [H64|H64].
    + cbn [negb andb]. unfold int_of_uint64.
      destruct (Z.leb_spec two63 (decimal_value (String c s) 0));
        destruct (Z.ltb_spec (decimal_value (String c s) 0) two63);
        try reflexivity; ints; lia.
    + unfold rangeError.
      destruct (Z.ltb_spec (decimal_value (String c s) 0) two63);
        [ints; lia | reflexivity].
Qed.

(** [Atoi] on a minus sign and a numeral: the negated value, unless it is
    below [minInt64]. *)
Lemma Atoi_minus_numeral (ds : string) :
  is_numeral ds ->
  Atoi (String "-" ds) =
    if decimal_value ds 0 <=? two63 then Ok (- decimal_value ds 0)
    else Err (rangeError "Atoi" (String "-" ds)).
Proof.
  intros Hnum. pose proof Hnum as [Hne Hd].
  pose proof (decimal_value_mono _ 0 Hd ltac:(lia)) as H0.
  unfold Atoi.
  destruct ((0 <? Z.of_nat (String.length (String "-" ds)))
            && (Z.of_nat (String.length (String "-" ds)) <? 19)) eqn:Hfast.
  - apply andb_true_iff in Hfast as [_ Hlen]. apply Z.ltb_lt in Hlen.
    cbn [String.length] in Hlen. rewrite Nat2Z.inj_succ in Hlen.
    change (Ascii.eqb "-" "-") with true. cbn [orb andb].
    destruct ds as [|d ds]; [congruence|].
    replace (Z.of_nat (String.length (String d ds)) <? 1) with false
      by (symmetry; apply Z.ltb_ge; cbn [String.length]; lia).
    rewrite Atoi_fast_loop_spec by exact Hd.
    pose proof (short_numeral_small _ Hd ltac:(lia)) as Hs.
    destruct (Z.leb_spec (decimal_value (String d ds) 0) two63);
      [reflexivity | ints; lia].
  - unfold ParseInt.
    change (Ascii.eqb "-" "+") with false.
    change (Ascii.eqb "-" "-") with true. cbn iota.
    rewrite (ParseUint_numeral _ Hnum).
    destruct (Z.ltb_spec (decimal_value ds 0) two64) as [H64|H64].
    + cbn [negb andb].
      destruct (Z.ltb_spec two63 (decimal_value ds 0)) as [Hbig|Hfit];
        destruct (Z.leb_spec (decimal_value ds 0) two63);
        try reflexivity; try (ints; lia).
      f_equal. unfold int_of_uint64 at 2.
      destruct (Z.ltb_spec (decimal_value ds 0) two63) as [Hlt|Hge].
      * destruct (Z.eq_dec (decimal_value ds 0) 0) as [E|E].
        { rewrite E. reflexivity. }
        assert (Eu : u64 (- decimal_value ds 0) = two64 - decimal_value ds 0).
        { unfold u64.
          replace (- decimal_value ds 0)
            with ((two64 - decimal_value ds 0) + (-1) * two64) by lia.
          rewrite Z_mod_plus_full. apply Z.mod_small. ints; lia. }
        rewrite Eu. unfold int_of_uint64.
        destruct (Z.ltb_spec (two64 - decimal_value ds 0) two63); ints; lia.
      * assert (E : decimal_value ds 0 = two63) by lia.
        rewrite E. reflexivity.
    + unfold rangeError.
      destruct (Z.leb_spec (decimal_value ds 0) two63);
        [ints; lia | reflexivity].
Qed.

(** [Atoi] reads back what [Itoa] wrote. *)
Lemma Atoi_Itoa (i : Z) : is_int64 i -> Atoi (Itoa i) = Ok i.
Proof.
  intros Hi. unfold Itoa, FormatInt.
  destruct (Z.ltb_spec i 0) as [Hneg|Hpos].
  - assert (Hu : is_uint64 (- i)) by (ints; lia).
    destruct (FormatUint_canonical _ Hu) as [Hnum _].
    rewrite (Atoi_minus_numeral _ Hnum), FormatUint_value by exact Hu.
    destruct (Z.leb_spec (- i) two63); [f_equal; lia | ints; lia].
  - assert (Hu : is_uint64 i) by (ints; lia).
    destruct (FormatUint_canonical _ Hu) as [Hnum _].
    rewrite (Atoi_numeral _ Hnum), FormatUint_value by exact Hu.
    destruct (Z.ltb_spec i two63); [reflexivity | ints; lia].
Qed.

(** *** The range of the results *)

Lemma byte_of_range (c : ascii) : 0 <= byte_of c < 256.
Proof. unfold byte_of. pose proof (nat_ascii_bounded c). lia. Qed.

Lemma Atoi_fast_loop_digits (s0 s : string) : forall n v : Z,
  Atoi_fast_loop s0 s n = Ok v -> all_digits s = true /\ v = decimal_value s n.
Proof.
  induction s as [|c s IH]; intros n v; cbn [Atoi_fast_loop all_digits decimal_value].
  - intros E. injection E as <-. auto.
  - pose proof (byte_of_range c) as Hc.
    destruct (Z.ltb_spec 9 ((byte_of c - 48) mod 256)) as [|Hd]; [discriminate|].
    assert (Hdig : 0 <= byte_of c - 48 <= 9).
    { destruct (Z.lt_ge_cases (byte_of c) 48) as [Hlow|Hhigh].
      - replace (byte_of c - 48) with ((byte_of c + 208) + (-1) * 256) in Hd by lia.
        rewrite Z_mod_plus_full, Z.mod_small in Hd by lia. lia.
      - rewrite Z.mod_small in Hd by lia. lia. }
    rewrite (Z.mod_small (byte_of c - 48) 256) by lia.
    intros E. destruct (IH _ _ E) as [Hs ->].
    split; [|reflexivity]. rewrite Hs, andb_true_r. apply is_digit_spec, Hdig.
Qed.

Lemma ParseUint_loop_range (s0 s : string) : forall n v : Z,
  is_uint64 n -> ParseUint_loop s0 s n = Ok v -> is_uint64 v.
Proof.
  induction s as [|c s IH]; intros n v Hn; cbn [ParseUint_loop].
  - intros E. injection E as <-. exact Hn.
  - destruct (is_digit c); [|discriminate].
    destruct (cutoff10 <=? n); [discriminate|].
    destruct (_ || _); [discriminate|].
    apply IH, u64_range.
Qed.

Lemma ParseInt_range (fn s : string) (v : Z) : ParseInt fn s = Ok v -> is_int64 v.
Proof.
  unfold ParseInt. destruct s as [|c rest]; [discriminate|].
  destruct (if Ascii.eqb c "+" then (false, rest)
            else if Ascii.eqb c "-" then (true, rest)
            else (false, String c rest)) as [neg body].
  destruct (ParseUint body) as [un|e] eqn:Hun.
  2:{ destruct e as [| ? ? []| |]; discriminate. }
  assert (Hu : is_uint64 un).
  { unfold ParseUint in Hun. destruct body; [discriminate|].
    eapply (ParseUint_loop_range _ _ 0 un); [ints; lia | exact Hun]. }
  destruct (negb neg && (two63 <=? un)); [discriminate|].
  destruct (neg && (two63 <? un)); [discriminate|].
  intros E. injection E as <-.
  destruct neg; apply int_of_uint64_range; [apply u64_range | exact Hu].
Qed.

(** What [Atoi] returns is an [int]. *)
Lemma Atoi_range (s : string) (v : Z) : Atoi s = Ok v -> is_int64 v.
Proof.
  unfold Atoi.
  destruct ((0 <? Z.of_nat (String.length s)) && (Z.of_nat (String.length s) <? 19))
    eqn:Hfast; [|apply ParseInt_range].
  apply andb_true_iff in Hfast as [_ Hlen]. apply Z.ltb_lt in Hlen.
  destruct s as [|c rest]; [discriminate|].
  set (signed := Ascii.eqb c "-" || Ascii.eqb c "+").
  set (body := if signed then rest else String c rest).
  assert (Hbody : Z.of_nat (String.length body) < 19).
  { unfold body. cbn [String.length] in Hlen. destruct signed; cbn [String.length]; lia. }
  destruct (signed && _); [discriminate|].
  destruct (Atoi_fast_loop _ body 0) as [n|e] eqn:Hloop; [|discriminate].
  destruct (Atoi_fast_loop_digits _ _ _ _ Hloop) as [Hd ->].
  pose proof (short_numeral_small body Hd Hbody) as Hsmall.
  intros E. injection E as <-.
  destruct (Ascii.eqb c "-"); ints; lia.
Qed.

End strconv_facts.

Example Itoa_42 : strconv.Itoa 42 = "42".
Proof. reflexivity. Qed.

Example Itoa_minInt64 : strconv.Itoa minInt64 = "-9223372036854775808".
Proof. vm_compute. reflexivity. Qed.

Example Atoi_plus_sign : strconv.Atoi "+7" = Ok 7.
Proof. vm_compute. reflexivity. Qed.

Example Atoi_sign_alone : strconv.Atoi "-" = Err (NumError "Atoi" "-" ErrSyntax).
Proof. vm_compute. reflexivity. Qed.

Example Atoi_not_a_digit : strconv.Atoi "4x2" = Err (NumError "Atoi" "4x2" ErrSyntax).
Proof. vm_compute. reflexivity. Qed.

Example Atoi_above_maxInt64 :
  strconv.Atoi "9223372036854775808"
  = Err (NumError "Atoi" "9223372036854775808" ErrRange).
Proof. vm_compute. reflexivity. Qed.

(** ** [Init] and [Open] *)

Section Configuration.

Variable json : string -> result (gmap string Z).

(** An empty configuration selects the jitter 10 and decodes nothing. *)
Lemma Init_default (seeded : rand.Rand) (m : MyPlugin) (cfg : string) :
  cfg = "" \/ cfg = "{}" ->
  Init json seeded m cfg = ({| jitter := 10; rand := seeded |}, None).
Proof. intros [-> | ->]; reflexivity. Qed.

(** A configuration that decodes sets the jitter it names, 10 if it names
    none; one that does not decode leaves the plugin as it was. *)
Lemma Init_decoded (seeded : rand.Rand) (m : MyPlugin) (cfg : string) :
  cfg <> "" -> cfg <> "{}" ->
  Init json seeded m cfg =
    match json cfg with
    | Err err => (m, Some err)
    | Ok obj => ({| jitter := default 10 (obj !! "jitter"); rand := seeded |}, None)
    end.
Proof.
  intros H1 H2. unfold Init.
  destruct (String.eqb_spec cfg ""); [contradiction|].
  destruct (String.eqb_spec cfg "{}"); [contradiction|].
  cbn [negb andb]. destruct (json cfg) as [obj|err]; [|reflexivity].
  destruct (obj !! "jitter"); reflexivity.
Qed.

Lemma Open_ok (prms : string) (m0 : MyInstance) :
  Open json prms = Ok m0 ->
  counter m0 = 0 /\ initParams m0 = prms /\
  exists obj, json prms = Ok obj
              /\ obj !! "start" = Some (sample m0)
              /\ obj !! "maxEvents" = Some (maxEvents m0).
Proof.
  unfold Open. destruct (json prms) as [obj|e]; [|discriminate].
  destruct (obj !! "start") as [s|] eqn:Hs; [|discriminate].
  destruct (obj !! "maxEvents") as [mx|] eqn:Hm; [|discriminate].
  intros E. injection E as <-. cbn. eauto 6.
Qed.

(** A missing key is reported by name, [start] before [maxEvents]. *)
Lemma Open_missing_maxEvents (prms : string) (obj : gmap string Z) (start : Z) :
  json prms = Ok obj -> obj !! "start" = Some start -> obj !! "maxEvents" = None ->
  Open json prms
  = Err (Errorf "params %s did not contain maxEvents property" [ArgString prms]).
Proof. intros H1 H2 H3. unfold Open. rewrite H1, H2, H3. reflexivity. Qed.

End Configuration.

(** ** The random draw *)

Lemma jitter_bound_valid (J : Z) :
  valid_jitter J -> int_of_uint64 (u64 (J + 1)) = J + 1.
Proof.
  unfold valid_jitter. intros H.
  rewrite u64_small by (ints; lia).
  unfold int_of_uint64. destruct (Z.ltb_spec (J + 1) two63); ints; lia.
Qed.

Lemma Int63n_valid (J : Z) (r : rand.Rand) :
  valid_jitter J ->
  exists v, rand.Int63n r (int_of_uint64 (u64 (J + 1))) = Some (v, rand.advance r)
            /\ 0 <= v <= J.
Proof.
  intros H. rewrite (jitter_bound_valid J H). unfold rand.Int63n.
  destruct (Z.leb_spec (J + 1) 0); [unfold valid_jitter in H; lia|].
  eexists. split; [reflexivity|].
  pose proof (Z.mod_pos_bound (rand.draws r (rand.cursor r)) (J + 1)). lia.
Qed.

(** Whatever the jitter, a draw that returns is within the bound. *)
Lemma Int63n_returned (J : Z) (r r' : rand.Rand) (v : Z) :
  0 <= J ->
  rand.Int63n r (int_of_uint64 (u64 (J + 1))) = Some (v, r') ->
  0 <= v <= J /\ 0 <= v <= maxInt64.
Proof.
  intros HJ. unfold rand.Int63n.
  set (n := int_of_uint64 (u64 (J + 1))).
  assert (Hn : n <= J + 1 /\ n <= two63).
  { unfold n, int_of_uint64.
    pose proof (u64_le (J + 1) ltac:(lia)). pose proof (u64_range (J + 1)).
    destruct (Z.ltb_spec (u64 (J + 1)) two63); ints; lia. }
  destruct (Z.leb_spec n 0); [discriminate|].
  intros E. injection E as <- _.
  pose proof (Z.mod_pos_bound (rand.draws r (rand.cursor r)) n). ints. lia.
Qed.

(** The increment [1 + uint64(v)] of a draw [v]. *)
Lemma increment_of_draw (v : Z) :
  0 <= v <= maxInt64 -> u64 (1 + uint64_of_int v) = 1 + v.
Proof.
  intros H. rewrite (uint64_of_int_nonneg v H).
  apply u64_small. ints. lia.
Qed.

(** ** The loop of [NextBatch] *)

(** A property of the instance is kept by the whole loop when it is kept by
    the increment of [counter], the state a panicking draw leaves, and by the
    increment of [counter] followed by the addition to [sample]. *)
Lemma NextBatch_loop_invariant (I : MyInstance -> Prop) (J : Z) :
  0 <= J ->
  (forall m, I m -> counter m < maxEvents m ->
     I (set_counter m (u64 (counter m + 1)))) ->
  (forall m v, I m -> counter m < maxEvents m -> 0 <= v <= J ->
     I (set_sample (set_counter m (u64 (counter m + 1)))
          (u64 (sample m + (1 + v))))) ->
  forall evts n m r out,
    I m -> I (inst (NextBatch_loop J evts n m r out)).
Proof.
  intros HJ Hcount Hsample. induction evts as [|evt evts IH]; intros n m r out Hm;
    cbn [NextBatch_loop]; [exact Hm|].
  destruct (Z.ltb_spec (counter m) (maxEvents m)) as [Hlt|Hge]; [|exact Hm].
  destruct (rand.Int63n r _) as [[v r']|] eqn:Hdraw; [|exact (Hcount m Hm Hlt)].
  destruct (Int63n_returned J r r' v HJ Hdraw) as [Hv Hv'].
  rewrite increment_of_draw by exact Hv'.
  specialize (Hsample m v Hm Hlt Hv).
  destruct (sdk.Write evt _); [exact Hsample|].
  apply IH. exact Hsample.
Qed.

Lemma NextBatch_invariant (I : MyInstance -> Prop) (p : MyPlugin) :
  0 <= jitter p ->
  (forall m, I m -> counter m < maxEvents m ->
     I (set_counter m (u64 (counter m + 1)))) ->
  (forall m v, I m -> counter m < maxEvents m -> 0 <= v <= jitter p ->
     I (set_sample (set_counter m (u64 (counter m + 1)))
          (u64 (sample m + (1 + v))))) ->
  forall m evts, I m -> I (inst (NextBatch m p evts)).
Proof.
  intros HJ Hcount Hsample m evts Hm. unfold NextBatch.
  destruct (maxEvents m <=? counter m); [exact Hm|].
  apply NextBatch_loop_invariant; assumption.
Qed.

(** With slots that accept every payload and a valid jitter the loop produces
    until the slots or the events run out. *)
Lemma NextBatch_loop_accepting (J : Z) (evts : sdk.EventWriters) :
  valid_jitter J -> Forall accepts_all evts ->
  forall n m r out,
    is_uint64 (maxEvents m) -> 0 <= counter m <= maxEvents m ->
    let b := NextBatch_loop J evts n m r out in
    let k := Z.min (Z.of_nat (length evts)) (maxEvents m - counter m) in
    ret b = Returned (n + k, None)
    /\ counter (inst b) = counter m + k
    /\ maxEvents (inst b) = maxEvents m
    /\ Z.of_nat (length (written b)) = Z.of_nat (length out) + k.
Proof.
  intros HJ Hacc. induction Hacc as [|evt evts Hevt _ IH]; intros n m r out HM Hc;
    cbn [NextBatch_loop].
  - cbn [ret inst written length]. repeat split; [do 2 f_equal; lia | lia..].
  - destruct (Z.ltb_spec (counter m) (maxEvents m)) as [Hlt|Hge].
    + destruct (Int63n_valid J r HJ) as (v & -> & Hv).
      rewrite Hevt.
      set (m2 := set_sample _ _).
      assert (Ec : counter m2 = counter m + 1)
        by (cbn; apply u64_small; ints; lia).
      destruct (IH (n + 1) m2 (rand.advance r)
                  (out ++ [strconv.Itoa (int_of_uint64 (sample m2))])%list)
        as (Hret & Hcnt & Hmax & Hlen); [exact HM | cbn in *; lia |].
      rewrite Hret, Hcnt, Hmax, Hlen, Ec, length_app.
      change (maxEvents m2) with (maxEvents m).
      cbn [length]. repeat split; [do 2 f_equal; lia | lia..].
    + cbn [ret inst written]. repeat split; [do 2 f_equal; lia | lia..].
Qed.

Lemma NextBatch_exhausted (m : MyInstance) (p : MyPlugin) (evts : sdk.EventWriters) :
  maxEvents m <= counter m -> NextBatch m p evts = eof m p.
Proof.
  intros H. unfold NextBatch.
  destruct (Z.leb_spec (maxEvents m) (counter m)); [reflexivity | lia].
Qed.

Lemma set_rand_same (p : MyPlugin) : set_rand p (rand p) = p.
Proof. destruct p. reflexivity. Qed.

Lemma drive_exhausted (m : MyInstance) (batches : list sdk.EventWriters) :
  maxEvents m <= counter m ->
  forall p, drive p m batches = map (fun _ => eof m p) batches.
Proof.
  intros H. induction batches as [|evts batches IH]; intros p; cbn [drive map];
    [reflexivity|].
  rewrite NextBatch_exhausted by exact H. cbn [ret eof rnd inst].
  rewrite set_rand_same, IH. reflexivity.
Qed.

Lemma NextBatch_accepting (m : MyInstance) (p : MyPlugin) (evts : sdk.EventWriters) :
  valid_jitter (jitter p) -> Forall accepts_all evts ->
  is_uint64 (maxEvents m) -> 0 <= counter m <= maxEvents m ->
  let b := NextBatch m p evts in
  let k := Z.min (Z.of_nat (length evts)) (maxEvents m - counter m) in
  (ret b = Returned (k, None) \/ ret b = Returned (0, Some ErrEOF))
  /\ reported b = k
  /\ counter (inst b) = counter m + k
  /\ maxEvents (inst b) = maxEvents m
  /\ Z.of_nat (length (written b)) = k.
Proof.
  intros HJ Hacc HM Hc. unfold NextBatch.
  destruct (Z.leb_spec (maxEvents m) (counter m)) as [Hdone|Hmore].
  - cbn. repeat split; try lia; try (right; reflexivity).
  - destruct (NextBatch_loop_accepting _ _ HJ Hacc 0 m (rand p) [] HM Hc)
      as (Hret & Hcnt & Hmax & Hlen).
    cbn zeta. unfold reported. rewrite Hret, Hcnt, Hmax, Hlen.
    cbn [length]. repeat split; try lia; try (left; do 2 f_equal; lia).
Qed.

Lemma last_cons {A : Type} (l : list A) : forall a d : A,
  List.last (a :: l) d = List.last l a.
Proof.
  induction l as [|x l IH]; intros a d; [reflexivity|].
  change (List.last (a :: x :: l) d) with (List.last (x :: l) d).
  rewrite !IH. reflexivity.
Qed.

Lemma final_inst_cons (m : MyInstance) (b : Batch) (bs : list Batch) :
  final_inst m (b :: bs) = final_inst (inst b) bs.
Proof. unfold final_inst. cbn [map]. apply last_cons. Qed.

Lemma drive_accepting (batches : list sdk.EventWriters) :
  Forall (Forall accepts_all) batches ->
  forall (p : MyPlugin) (m : MyInstance),
    valid_jitter (jitter p) ->
    is_uint64 (maxEvents m) -> 0 <= counter m <= maxEvents m ->
    let calls := drive p m batches in
    length calls = length batches
    /\ Forall returned_normally calls
    /\ total_reported calls = Z.min (capacity batches) (maxEvents m - counter m)
    /\ Z.of_nat (length (all_written calls)) = total_reported calls
    /\ counter (final_inst m calls) = counter m + total_reported calls
    /\ maxEvents (final_inst m calls) = maxEvents m.
Proof.
  intros Hacc. induction Hacc as [|evts batches Hevts _ IH]; intros p m HJ HM Hc.
  - cbn. repeat split; try constructor; lia.
  - cbn [drive].
    change (capacity (evts :: batches))
      with (Z.of_nat (length evts) + capacity batches).
    destruct (NextBatch_accepting m p evts HJ Hevts HM Hc)
      as (Hret & Hrep & Hcnt & Hmax & Hlen).
    set (b := NextBatch m p evts) in *.
    assert (Hb : returned_normally b)
      by (destruct Hret; [eexists; left | exists 0; right]; eassumption).
    assert (Hr : exists a, ret b = Returned a) by (destruct Hret; eauto).
    destruct Hr as [a ->].
    destruct (IH (set_rand p (rnd b)) (inst b) HJ) as (IHlen & IHok & IHtot & IHwr & IHcnt & IHmax);
      [rewrite Hmax; exact HM | lia |].
    cbn zeta. rewrite final_inst_cons.
    unfold all_written, total_reported in *.
    cbn [length flat_map fold_right]. rewrite length_app, Nat2Z.inj_add.
    rewrite IHcnt, IHmax, IHwr, IHtot, Hlen, Hrep, Hmax, Hcnt, IHlen.
    repeat split; try lia. constructor; assumption.
Qed.

(** ** A run on a concrete host *)

Lemma accepting_accepts_all : accepts_all Fixtures.accepting.
Proof. intros bytes. reflexivity. Qed.

Example Open_fixture : Open (Fixtures.decoder 5 3) (Fixtures.params 5 3)
                       = Ok (Fixtures.opened 5 3).
Proof. vm_compute. reflexivity. Qed.

Example NextBatch_fixture :
  let b := NextBatch (Fixtures.opened 5 3) (Fixtures.plugin 10)
             [Fixtures.accepting; Fixtures.accepting] in
  ret b = Returned (2, None) /\ written b = ["9"; "20"]
  /\ counter (inst b) = 2 /\ sample (inst b) = 20.
Proof. vm_compute. repeat split; reflexivity. Qed.

(** ** Exhaustion *)

(** X19.  With a jitter bound of at most [2^63 - 2] and slots that accept
    every write, the calls made on a session opened with [maxEvents = M] all
    return, report [min M capacity] events in total and write as many
    payloads; once the slots offered reach [M] the total is exactly [M].  A
    call made when [counter] has reached [maxEvents] returns [(0, ErrEOF)] and
    leaves the instance, the random source and the slots untouched, whatever
    the plugin state and the slots, and so does every later call. *)
Theorem exhaustion_exactness
    (json : string -> result (gmap string Z)) (prms : string)
    (m0 : MyInstance) (p : MyPlugin) (batches : list sdk.EventWriters) :
  Open json prms = Ok m0 ->
  is_uint64 (maxEvents m0) ->
  valid_jitter (jitter p) ->
  Forall (Forall accepts_all) batches ->
  let M := maxEvents m0 in
  let calls := drive p m0 batches in
  let m := final_inst m0 calls in
  length calls = length batches
  /\ Forall returned_normally calls
  /\ total_reported calls = Z.min M (capacity batches)
  /\ Z.of_nat (length (all_written calls)) = total_reported calls
  /\ counter m = total_reported calls
  /\ (M <= capacity batches ->
      total_reported calls = M
      /\ forall p' more, drive p' m more = map (fun _ => eof m p') more)
  /\ (forall m' p' evts, counter m' = maxEvents m' -> NextBatch m' p' evts = eof m' p').
Proof.
  intros Hopen HM HJ Hacc M calls m.
  destruct (Open_ok _ _ _ Hopen) as (Hc0 & _).
  destruct (drive_accepting batches Hacc p m0 HJ HM ltac:(ints; lia))
    as (Hlen & Hok & Htot & Hwr & Hcnt & Hmax).
  fold calls in Hlen, Hok, Htot, Hwr, Hcnt, Hmax. fold m in Hcnt, Hmax.
  rewrite Hc0 in *. fold M in Htot, Hmax.
  repeat split; try assumption; try lia.
  - intros p' more. apply drive_exhausted. lia.
  - intros m' p' evts E. apply NextBatch_exhausted. lia.
Qed.

(** C1 at a failing input.  The plugin is configured with
    [jitter = 2^64 - 1], which [Init] accepts, and a session is opened for one
    event and offered one slot that accepts every write.  [jitter + 1] wraps
    to [0], [Int63n(int64(0))] panics after [counter] was incremented, nothing
    is written, and from then on the session reports the end of the stream: it
    produces no event at all, where it was opened for one. *)
Lemma exhaustion_fails_on_oversized_jitter :
  let m0 := Fixtures.opened 0 1 in
  let p := Fixtures.plugin maxUint64 in
  let batches := [[Fixtures.accepting]] in
  let calls := drive p m0 batches in
  let cfg := "{" ++ quote ++ "jitter" ++ quote ++ ": 18446744073709551615}" in
  Init (fun _ => Ok (<["jitter" := maxUint64]> ∅)) Fixtures.source
       (Fixtures.plugin 10) cfg = (p, None)
  /\ Open (Fixtures.decoder 0 1) (Fixtures.params 0 1) = Ok m0
  /\ maxEvents m0 <= capacity batches
  /\ map ret calls = [Panicked "invalid argument to Int63n"]
  /\ all_written calls = []
  /\ total_reported calls <> maxEvents m0
  /\ NextBatch (final_inst m0 calls) p [Fixtures.accepting]
     = eof (final_inst m0 calls) p.
Proof.
  cbv zeta. split; [vm_compute; reflexivity|].
  split; [vm_compute; reflexivity|].
  split; [vm_compute; discriminate|].
  split; [vm_compute; reflexivity|].
  split; [vm_compute; reflexivity|].
  split; [vm_compute; discriminate|].
  vm_compute; reflexivity.
Qed.

Lemma exhaustion_exactness_witness :
  let m0 := Fixtures.opened 5 3 in
  let calls :=
    drive (Fixtures.plugin 10) m0
      [[Fixtures.accepting; Fixtures.accepting];
       [Fixtures.accepting; Fixtures.accepting]] in
  total_reported calls = 3
  /\ drive (Fixtures.plugin 10) (final_inst m0 calls)
       [[Fixtures.accepting]; [Fixtures.accepting]]
     = [eof (final_inst m0 calls) (Fixtures.plugin 10);
        eof (final_inst m0 calls) (Fixtures.plugin 10)].
Proof.
  intros m0 calls.
  destruct (exhaustion_exactness (Fixtures.decoder 5 3) (Fixtures.params 5 3) m0
              (Fixtures.plugin 10)
              [[Fixtures.accepting; Fixtures.accepting];
               [Fixtures.accepting; Fixtures.accepting]])
    as (_ & _ & _ & _ & _ & Hfull & _).
  - vm_compute. reflexivity.
  - vm_compute. split; [discriminate | reflexivity].
  - vm_compute. split; [discriminate | reflexivity].
  - repeat constructor.
  - split.
    + apply Hfull. vm_compute. discriminate.
    + apply (proj2 (Hfull ltac:(vm_compute; discriminate))).
Defined.

(** ** The samples behind the payloads *)

Lemma jittered_app (J : Z) (l1 l2 : list Z) : forall s,
  jittered J s l1 -> jittered J (List.last l1 s) l2 -> jittered J s (l1 ++ l2).
Proof.
  induction l1 as [|x l1 IH]; intros s H1 H2; [exact H2|].
  destruct H1 as [Hx H1]. split; [exact Hx|].
  apply IH; [exact H1|]. rewrite last_cons in H2. exact H2.
Qed.

Lemma jittered_uint64 (J : Z) (l : list Z) : forall s,
  jittered J s l -> Forall is_uint64 l.
Proof.
  induction l as [|x l IH]; intros s H; constructor.
  - destruct H as [(r & _ & ->) _]. apply u64_range.
  - destruct H as [_ H]. exact (IH _ H).
Qed.

(** Successive samples differ by a value of [[1, J+1]] modulo [2^64], and by
    that value as integers when the addition did not wrap. *)
Lemma jittered_difference (J : Z) (l : list Z) : forall s i x y,
  valid_jitter J -> is_uint64 s -> jittered J s l ->
  (s :: l) !! i = Some y -> l !! i = Some x ->
  1 <= u64 (x - y) <= J + 1 /\ (y + (J + 1) < two64 -> 1 <= x - y <= J + 1).
Proof.
  induction l as [|z l IH]; intros s i x y HJ Hs H Hy Hx;
    [destruct i; discriminate|].
  destruct H as [(r & Hr & Hz) H].
  destruct i as [|i].
  - cbn in Hy, Hx. injection Hy as <-. injection Hx as <-.
    assert (E : u64 (z - s) = 1 + r).
    { rewrite Hz. unfold u64. rewrite Zminus_mod_idemp_l.
      replace (s + (1 + r) - s) with (1 + r) by lia.
      apply Z.mod_small. unfold valid_jitter in HJ. ints. lia. }
    split; [lia|]. intros Hfit.
    rewrite Hz, u64_small by (ints; lia). lia.
  - cbn in Hy, Hx. apply (IH z i x y); try assumption.
    rewrite Hz. apply u64_range.
Qed.

(** The payloads a call writes render a jittered run of samples that starts
    from the sample of the instance, and with accepting slots the instance is
    left at the last of them. *)
Lemma NextBatch_loop_samples (J : Z) (evts : sdk.EventWriters) :
  0 <= J ->
  forall n m r out,
    let b := NextBatch_loop J evts n m r out in
    exists l, written b = (out ++ map payload_of l)%list
              /\ jittered J (sample m) l
              /\ (Forall accepts_all evts -> sample (inst b) = List.last l (sample m)).
Proof.
  intros HJ. induction evts as [|evt evts IH]; intros n m r out; cbn [NextBatch_loop].
  - exists []. cbn. rewrite app_nil_r. auto.
  - destruct (Z.ltb_spec (counter m) (maxEvents m)) as [Hlt|Hge].
    2:{ exists []. cbn. rewrite app_nil_r. auto. }
    destruct (rand.Int63n r _) as [[v r']|] eqn:Hdraw.
    2:{ exists []. cbn. rewrite app_nil_r. auto. }
    destruct (Int63n_returned J r r' v HJ Hdraw) as [Hv Hv'].
    rewrite increment_of_draw by exact Hv'.
    set (m2 := set_sample _ _).
    assert (Es : sample m2 = u64 (sample m + (1 + v))) by reflexivity.
    destruct (sdk.Write evt _) as [err|] eqn:Hw.
    + exists []. cbn [map written inst]. rewrite app_nil_r.
      repeat split. intros Hacc. inversion Hacc as [|? ? Hevt _]; subst.
      rewrite (Hevt _) in Hw. discriminate.
    + destruct (IH (n + 1) m2 r' (out ++ [strconv.Itoa (int_of_uint64 (sample m2))])%list)
        as (l & Hwr & Hl & Hlast).
      exists (sample m2 :: l). cbn zeta in *. rewrite Hwr.
      cbn [map]. rewrite <- app_assoc. cbn [app]. repeat split.
      * exists v. split; [exact Hv | exact Es].
      * exact Hl.
      * intros Hacc. inversion Hacc; subst. rewrite last_cons. auto.
Qed.

Lemma NextBatch_samples (m : MyInstance) (p : MyPlugin) (evts : sdk.EventWriters) :
  0 <= jitter p ->
  let b := NextBatch m p evts in
  exists l, written b = map payload_of l
            /\ jittered (jitter p) (sample m) l
            /\ (Forall accepts_all evts -> sample (inst b) = List.last l (sample m)).
Proof.
  intros HJ. unfold NextBatch.
  destruct (Z.leb_spec (maxEvents m) (counter m)).
  - exists []. cbn. auto.
  - apply (NextBatch_loop_samples _ evts HJ 0 m (rand p) []).
Qed.

Lemma drive_samples (batches : list sdk.EventWriters) :
  Forall (Forall accepts_all) batches ->
  forall (p : MyPlugin) (m : MyInstance),
    0 <= jitter p ->
    exists l, all_written (drive p m batches) = map payload_of l
              /\ jittered (jitter p) (sample m) l.
Proof.
  intros Hacc. induction Hacc as [|evts batches Hevts _ IH]; intros p m HJ.
  - exists []. cbn. auto.
  - cbn [drive].
    destruct (NextBatch_samples m p evts HJ) as (l1 & Hw1 & Hl1 & Hlast).
    specialize (Hlast Hevts).
    set (b := NextBatch m p evts) in *.
    destruct (ret b).
    + destruct (IH (set_rand p (rnd b)) (inst b) HJ) as (l2 & Hw2 & Hl2).
      exists (l1 ++ l2)%list. unfold all_written in *. cbn [flat_map].
      rewrite Hw1, Hw2, map_app. split; [reflexivity|].
      apply jittered_app; [exact Hl1|]. rewrite <- Hlast. exact Hl2.
    + exists l1. unfold all_written. cbn [flat_map]. rewrite app_nil_r. auto.
Qed.

(** With a jitter of zero the run is [s+1, s+2, ...], modulo [2^64]. *)
Lemma jittered_zero (l : list Z) : forall s i x,
  jittered 0 s l -> l !! i = Some x -> x = u64 (s + (Z.of_nat i + 1)).
Proof.
  induction l as [|z l IH]; intros s i x H Hx; [destruct i; discriminate|].
  destruct H as [(r & Hr & Hz) H].
  assert (r = 0) by lia. subst r.
  destruct i as [|i]; cbn in Hx.
  - injection Hx as <-. rewrite Hz. f_equal.
  - rewrite (IH _ _ _ H Hx), Hz, u64_add_l. f_equal. lia.
Qed.

(** ** What [Extract] reads back from a payload *)

(** [dummy.value] of the payload written for the sample [x] is [x]. *)
Lemma Extract_value_payload (x : Z) :
  is_uint64 x ->
  Extract value_request (event_of (payload_of x)) = set_value (sdk.Uint64Value x).
Proof.
  intros Hx. unfold Extract, event_of, payload_of. cbn [ioutil.ReadAll sdk.reader
    sdk.content sdk.failure].
  rewrite strconv_facts.Atoi_Itoa by (apply int_of_uint64_range, Hx).
  cbn. rewrite uint64_of_int_of_uint64 by exact Hx. reflexivity.
Qed.

(** ** Determinism under zero jitter *)

(** C2, as amended.  With [jitter = 0], a session opened with [start = S] and
    slots that accept every write, the [n]-th payload written, for
    [1 <= n <= maxEvents] and however the slots are spread over the calls, is
    the rendering of [(S + n) mod 2^64]; [dummy.value] reads that number back
    from it, which is [S + n] itself when [S + n] is a [uint64]. *)
Theorem zero_jitter_nth_sample
    (json : string -> result (gmap string Z)) (prms : string)
    (m0 : MyInstance) (p : MyPlugin) (batches : list sdk.EventWriters) (n : Z) :
  Open json prms = Ok m0 ->
  is_uint64 (maxEvents m0) ->
  jitter p = 0 ->
  Forall (Forall accepts_all) batches ->
  1 <= n <= Z.min (maxEvents m0) (capacity batches) ->
  let S := sample m0 in
  exists bytes,
    all_written (drive p m0 batches) !! Z.to_nat (n - 1) = Some bytes
    /\ bytes = strconv.Itoa (int_of_uint64 (u64 (S + n)))
    /\ Extract value_request (event_of bytes)
       = set_value (sdk.Uint64Value (u64 (S + n)))
    /\ (is_uint64 (S + n) ->
        Extract value_request (event_of bytes) = set_value (sdk.Uint64Value (S + n))).
Proof.
  intros Hopen HM HJ Hacc Hn S.
  destruct (Open_ok _ _ _ Hopen) as (Hc0 & _).
  assert (HJ0 : 0 <= jitter p) by lia.
  assert (HJv : valid_jitter (jitter p)) by (rewrite HJ; unfold valid_jitter; ints; lia).
  destruct (drive_samples batches Hacc p m0 HJ0) as (l & Hw & Hl).
  destruct (drive_accepting batches Hacc p m0 HJv HM ltac:(ints; lia))
    as (_ & _ & Htot & Hlen & _).
  rewrite Htot, Hw, length_map, Hc0 in Hlen. rewrite HJ in Hl.
  destruct (lookup_lt_is_Some_2 l (Z.to_nat (n - 1)) ltac:(lia)) as [x Hx].
  pose proof (jittered_zero l _ _ _ Hl Hx) as Ex.
  replace (Z.of_nat (Z.to_nat (n - 1)) + 1) with n in Ex by lia.
  fold S in Ex.
  exists (payload_of x). rewrite Hw.
  change (map payload_of l) with (payload_of <$> l).
  rewrite list_lookup_fmap, Hx. subst x.
  repeat split.
  - apply Extract_value_payload, u64_range.
  - intros Hfit. rewrite (u64_small _ Hfit).
    apply Extract_value_payload, Hfit.
Qed.

Lemma zero_jitter_nth_sample_witness :
  exists bytes,
    all_written
      (drive (Fixtures.plugin 0) (Fixtures.opened 40 3)
         [[Fixtures.accepting]; [Fixtures.accepting; Fixtures.accepting]])
      !! Z.to_nat (2 - 1) = Some bytes
    /\ bytes = strconv.Itoa (int_of_uint64 (u64 (40 + 2)))
    /\ Extract value_request (event_of bytes)
       = set_value (sdk.Uint64Value (u64 (40 + 2)))
    /\ (is_uint64 (40 + 2) ->
        Extract value_request (event_of bytes) = set_value (sdk.Uint64Value (40 + 2))).
Proof.
  apply (zero_jitter_nth_sample (Fixtures.decoder 40 3) (Fixtures.params 40 3)
           (Fixtures.opened 40 3) (Fixtures.plugin 0)
           [[Fixtures.accepting]; [Fixtures.accepting; Fixtures.accepting]] 2).
  - vm_compute. reflexivity.
  - vm_compute. split; [discriminate | reflexivity].
  - reflexivity.
  - repeat constructor.
  - vm_compute. split; discriminate.
Defined.

(** The claim of C2 fails where the [uint64] addition wraps: a session
    opened with [start = 2^64 - 1] writes ["0"] as its first payload, and
    [dummy.value] of it is [0], not [start + 1].  It also fails after a
    refused write: opened with [start = 10] and offered a slot that accepts, one
    that refuses and, in a second call, one that accepts, the session writes
    ["11"] and then ["13"], so that its second event carries [start + 3]. *)
Lemma zero_jitter_sample_departs :
  let S := maxUint64 in
  let calls := drive (Fixtures.plugin 0) (Fixtures.opened S 1) [[Fixtures.accepting]] in
  let retried :=
    drive (Fixtures.plugin 0) (Fixtures.opened 10 3)
      [[Fixtures.accepting; Fixtures.refusing]; [Fixtures.accepting]] in
  (Open (Fixtures.decoder S 1) (Fixtures.params S 1) = Ok (Fixtures.opened S 1)
   /\ all_written calls = ["0"]
   /\ sample (final_inst (Fixtures.opened S 1) calls) = 0
   /\ Extract value_request (event_of "0") = set_value (sdk.Uint64Value 0)
   /\ 0 <> S + 1)
  /\ (all_written retried = ["11"; "13"]
      /\ Extract value_request (event_of "13") = set_value (sdk.Uint64Value 13)
      /\ 13 <> 10 + 2).
Proof.
  cbv zeta. repeat split; try (vm_compute; reflexivity); vm_compute; discriminate.
Qed.

(** ** Bounded increment under jitter *)

(** A call on one slot, made before the session is exhausted, is one pass of
    the loop body. *)
Lemma NextBatch_one_slot (m : MyInstance) (p : MyPlugin) (evt : sdk.EventWriter) :
  valid_jitter (jitter p) -> counter m < maxEvents m ->
  exists r, 0 <= r <= jitter p
    /\ rnd (NextBatch m p [evt]) = rand.advance (rand p)
    /\ sample (inst (NextBatch m p [evt])) = u64 (sample m + (1 + r))
    /\ counter (inst (NextBatch m p [evt])) = u64 (counter m + 1).
Proof.
  intros HJ Hlt. unfold NextBatch.
  destruct (Z.leb_spec (maxEvents m) (counter m)); [lia|].
  cbn [NextBatch_loop].
  destruct (Z.ltb_spec (counter m) (maxEvents m)); [|lia].
  destruct (Int63n_valid (jitter p) (rand p) HJ) as (v & -> & Hv).
  rewrite increment_of_draw by (unfold valid_jitter in HJ; lia).
  exists v. destruct (sdk.Write evt _); cbn; auto.
Qed.

(** With a valid jitter the draw of the loop is [Int63n (J + 1)]. *)
Lemma Int63n_of_jitter (J : Z) (r : rand.Rand) :
  valid_jitter J ->
  rand.Int63n r (int_of_uint64 (u64 (J + 1)))
  = Some (rand.draws r (rand.cursor r) mod (J + 1), rand.advance r)
  /\ rand.Int63n r (J + 1)
     = Some (rand.draws r (rand.cursor r) mod (J + 1), rand.advance r)
  /\ 0 <= rand.draws r (rand.cursor r) mod (J + 1) <= J.
Proof.
  intros HJ. rewrite (jitter_bound_valid J HJ). unfold rand.Int63n.
  destruct (Z.leb_spec (J + 1) 0); [unfold valid_jitter in HJ; lia|].
  pose proof (Z.mod_pos_bound (rand.draws r (rand.cursor r)) (J + 1)).
  repeat split; lia.
Qed.

(** A call on one slot adds one plus the value [Int63n (J + 1)] returned. *)
Lemma NextBatch_one_slot_draw (m : MyInstance) (p : MyPlugin) (evt : sdk.EventWriter) :
  valid_jitter (jitter p) -> counter m < maxEvents m ->
  let r := rand.draws (rand p) (rand.cursor (rand p)) mod (jitter p + 1) in
  rand.Int63n (rand p) (jitter p + 1) = Some (r, rnd (NextBatch m p [evt]))
  /\ 0 <= r <= jitter p
  /\ sample (inst (NextBatch m p [evt])) = u64 (sample m + (1 + r)).
Proof.
  intros HJ Hlt. destruct (Int63n_of_jitter (jitter p) (rand p) HJ) as (E1 & E2 & Hr).
  cbn zeta. rewrite E2. unfold NextBatch.
  destruct (Z.leb_spec (maxEvents m) (counter m)); [lia|].
  cbn [NextBatch_loop].
  destruct (Z.ltb_spec (counter m) (maxEvents m)); [|lia].
  rewrite E1.
  rewrite increment_of_draw by (unfold valid_jitter in HJ; lia).
  destruct (sdk.Write evt _); cbn; auto.
Qed.

Lemma samples_from_jittered (J : Z) (k : nat) : forall r s,
  valid_jitter J -> jittered J s (samples_from J r s k).
Proof.
  induction k as [|k IH]; intros r s HJ; cbn [samples_from jittered]; [exact I|].
  split; [|apply IH, HJ].
  eexists. split; [|reflexivity].
  apply (Int63n_of_jitter J r HJ).
Qed.

Lemma samples_from_length (J : Z) (k : nat) : forall r s,
  length (samples_from J r s k) = k.
Proof.
  induction k as [|k IH]; intros r s; cbn [samples_from length];
    [|rewrite IH]; reflexivity.
Qed.

Lemma samples_from_app (J : Z) (k1 k2 : nat) : forall r s,
  samples_from J r s (k1 + k2)
  = (samples_from J r s k1
     ++ samples_from J (Nat.iter k1 rand.advance r)
          (List.last (samples_from J r s k1) s) k2)%list.
Proof.
  induction k1 as [|k1 IH]; intros r s; [reflexivity|].
  cbn [Nat.add samples_from app]. rewrite IH, last_cons, Nat.iter_succ_r.
  reflexivity.
Qed.

(** With a valid jitter and accepting slots the loop writes the payloads of
    the samples the source determines, as many as slots and events allow. *)
Lemma NextBatch_loop_samples_from (J : Z) (evts : sdk.EventWriters) :
  valid_jitter J -> Forall accepts_all evts ->
  forall n m r out,
    is_uint64 (maxEvents m) -> 0 <= counter m <= maxEvents m ->
    let k := Z.to_nat (Z.min (Z.of_nat (length evts)) (maxEvents m - counter m)) in
    let l := samples_from J r (sample m) k in
    let b := NextBatch_loop J evts n m r out in
    written b = (out ++ map payload_of l)%list
    /\ sample (inst b) = List.last l (sample m)
    /\ rnd b = Nat.iter k rand.advance r.
Proof.
  intros HJ Hacc. induction Hacc as [|evt evts Hevt _ IH]; intros n m r out HM Hc;
    cbn [NextBatch_loop].
  - replace (Z.to_nat _) with 0%nat by (cbn [length]; lia).
    cbn. rewrite app_nil_r. auto.
  - destruct (Z.ltb_spec (counter m) (maxEvents m)) as [Hlt|Hge].
    + destruct (Int63n_of_jitter J r HJ) as (-> & _ & Hv).
      rewrite increment_of_draw by (unfold valid_jitter in HJ; lia).
      rewrite Hevt.
      set (m2 := set_sample _ _).
      assert (Ec : counter m2 = counter m + 1) by (cbn; apply u64_small; ints; lia).
      destruct (IH (n + 1) m2 (rand.advance r)
                  (out ++ [strconv.Itoa (int_of_uint64 (sample m2))])%list)
        as (Hw & Hs & Hr);
        [exact HM | change (maxEvents m2) with (maxEvents m); lia |].
      change (maxEvents m2) with (maxEvents m) in *. rewrite Ec in *.
      replace (Z.to_nat (Z.min (Z.of_nat (length (evt :: evts)))
                               (maxEvents m - counter m)))
        with (S (Z.to_nat (Z.min (Z.of_nat (length evts))
                                 (maxEvents m - (counter m + 1)))))
        by (cbn [length]; lia).
      cbn zeta in *. cbn [samples_from map].
      rewrite Hw, Hs, Hr, last_cons, Nat.iter_succ_r, <- app_assoc.
      auto.
    + replace (Z.to_nat _) with 0%nat by lia.
      cbn. rewrite app_nil_r. auto.
Qed.

Lemma NextBatch_samples_from (m : MyInstance) (p : MyPlugin) (evts : sdk.EventWriters) :
  valid_jitter (jitter p) -> Forall accepts_all evts ->
  is_uint64 (maxEvents m) -> 0 <= counter m <= maxEvents m ->
  let k := Z.to_nat (Z.min (Z.of_nat (length evts)) (maxEvents m - counter m)) in
  let l := samples_from (jitter p) (rand p) (sample m) k in
  let b := NextBatch m p evts in
  written b = map payload_of l
  /\ sample (inst b) = List.last l (sample m)
  /\ rnd b = Nat.iter k rand.advance (rand p).
Proof.
  intros HJ Hacc HM Hc. unfold NextBatch.
  destruct (Z.leb_spec (maxEvents m) (counter m)).
  - replace (Z.to_nat _) with 0%nat by lia. cbn. auto.
  - apply (NextBatch_loop_samples_from _ evts HJ Hacc 0 m (rand p) [] HM Hc).
Qed.

Lemma capacity_nonneg (batches : list sdk.EventWriters) : 0 <= capacity batches.
Proof.
  induction batches as [|evts batches IH]; [reflexivity|].
  change (capacity (evts :: batches))
    with (Z.of_nat (length evts) + capacity batches). lia.
Qed.

(** The payloads written over any calls are those of the samples the source
    determines. *)
Lemma drive_samples_from (batches : list sdk.EventWriters) :
  Forall (Forall accepts_all) batches ->
  forall (p : MyPlugin) (m : MyInstance),
    valid_jitter (jitter p) ->
    is_uint64 (maxEvents m) -> 0 <= counter m <= maxEvents m ->
    all_written (drive p m batches)
    = map payload_of
        (samples_from (jitter p) (rand p) (sample m)
           (Z.to_nat (Z.min (capacity batches) (maxEvents m - counter m)))).
Proof.
  intros Hacc. induction Hacc as [|evts batches Hevts _ IH]; intros p m HJ HM Hc.
  - replace (Z.to_nat _) with 0%nat by (cbn; lia). reflexivity.
  - cbn [drive].
    change (capacity (evts :: batches))
      with (Z.of_nat (length evts) + capacity batches).
    destruct (NextBatch_accepting m p evts HJ Hevts HM Hc)
      as (Hret & _ & Hcnt & Hmax & _).
    destruct (NextBatch_samples_from m p evts HJ Hevts HM Hc) as (Hw & Hs & Hr).
    cbn zeta in *.
    set (b := NextBatch m p evts) in *.
    assert (Ha : exists a, ret b = Returned a) by (destruct Hret; eauto).
    destruct Ha as [a ->].
    unfold all_written in *. cbn [flat_map].
    rewrite (IH (set_rand p (rnd b)) (inst b) HJ) by (rewrite ?Hmax; try exact HM; lia).
    cbn [set_rand jitter rand]. rewrite Hw, Hs, Hr, Hmax, Hcnt, <- map_app.
    rewrite <- samples_from_app. pose proof (capacity_nonneg batches).
    do 2 f_equal. lia.
Qed.

(** C3, as amended.  For a jitter bound [J] of at most [2^63 - 2], a
    production step adds [1 + r] to [sample] modulo [2^64], where [r] is the
    value that [Int63n (J + 1)] returned on the random source of the plugin, a
    value of [[0, J]]; and every value of [[0, J]], [J] included, is added
    when the source yields it.  So the difference of the two samples modulo
    [2^64] lies in [[1, J+1]], and so does their difference as integers when
    [sample + J + 1 < 2^64].  Over any calls on slots that accept every write,
    the payloads written are those of the samples the source determines in
    this way, as many as the slots and [maxEvents] allow, and successive
    samples differ within the same bounds. *)
Theorem jitter_increment_bounds
    (p : MyPlugin) (m : MyInstance) (evt : sdk.EventWriter) :
  valid_jitter (jitter p) ->
  is_uint64 (sample m) ->
  counter m < maxEvents m ->
  let J := jitter p in
  let b := NextBatch m p [evt] in
  let s' := sample (inst b) in
  (exists r, rand.Int63n (rand p) (J + 1) = Some (r, rnd b)
             /\ 0 <= r <= J
             /\ s' = u64 (sample m + (1 + r)))
  /\ (forall k, 0 <= k <= J ->
        sample (inst (NextBatch m (set_rand p (source_yielding k)) [evt]))
        = u64 (sample m + (1 + k)))
  /\ 1 <= u64 (s' - sample m) <= J + 1
  /\ (sample m + (J + 1) < two64 -> 1 <= s' - sample m <= J + 1)
  /\ (forall batches, Forall (Forall accepts_all) batches ->
      is_uint64 (maxEvents m) -> 0 <= counter m ->
      let l := samples_from J (rand p) (sample m)
                 (Z.to_nat (Z.min (capacity batches) (maxEvents m - counter m))) in
      all_written (drive p m batches) = map payload_of l
      /\ forall i x y, (sample m :: l) !! i = Some y -> l !! i = Some x ->
           1 <= u64 (x - y) <= J + 1
           /\ (y + (J + 1) < two64 -> 1 <= x - y <= J + 1)).
Proof.
  intros HJ Hs Hlt J b s'.
  destruct (NextBatch_one_slot_draw m p evt HJ Hlt) as (Hdraw & Hr & Es).
  fold J in Hdraw, Hr, Es. fold b in Hdraw, Es. fold s' in Es.
  set (r := rand.draws (rand p) (rand.cursor (rand p)) mod (J + 1)) in *.
  assert (Hstep : jittered J (sample m) [s']) by (cbn; eauto).
  destruct (jittered_difference J [s'] (sample m) 0%nat s' (sample m) HJ Hs Hstep)
    as [Hmod Hplain]; try reflexivity.
  split; [exists r; auto|]. split; [|split; [exact Hmod|split; [exact Hplain|]]].
  - intros k Hk.
    destruct (NextBatch_one_slot_draw m (set_rand p (source_yielding k)) evt HJ Hlt)
      as (_ & _ & E).
    rewrite E. cbn [set_rand jitter rand source_yielding rand.draws rand.cursor].
    fold J. rewrite Z.mod_small by lia. reflexivity.
  - intros batches Hacc HM Hc l. split.
    + apply (drive_samples_from batches Hacc p m HJ HM). lia.
    + intros i x y Hy Hx.
      exact (jittered_difference J l (sample m) i x y HJ Hs
               (samples_from_jittered J _ _ _ HJ) Hy Hx).
Qed.

Lemma jitter_increment_bounds_witness :
  let s' := sample (inst (NextBatch (Fixtures.opened 5 3) (Fixtures.plugin 10)
                            [Fixtures.accepting])) in
  1 <= s' - 5 <= 10 + 1.
Proof.
  intros s'.
  destruct (jitter_increment_bounds (Fixtures.plugin 10) (Fixtures.opened 5 3)
              Fixtures.accepting) as (_ & _ & _ & Hplain & _).
  - vm_compute. split; [discriminate | reflexivity].
  - vm_compute. split; [discriminate | reflexivity].
  - vm_compute. reflexivity.
  - apply Hplain. vm_compute. reflexivity.
Defined.

(** The claim of C3 fails in two places.  At [sample = 2^64 - 1] a step with
    [jitter = 0] wraps [sample] to [0], a difference of [-(2^64 - 1)].  With
    [jitter = 2^64 - 1] the draw panics and [sample] keeps its value, a
    difference of [0]. *)
Lemma jitter_increment_out_of_bounds :
  let wrapped := NextBatch (Fixtures.opened maxUint64 1) (Fixtures.plugin 0)
                   [Fixtures.accepting] in
  let panicked := NextBatch (Fixtures.opened 5 1) (Fixtures.plugin maxUint64)
                    [Fixtures.accepting] in
  (ret wrapped = Returned (1, None)
   /\ sample (inst wrapped) - maxUint64 = - maxUint64
   /\ ~ (1 <= sample (inst wrapped) - maxUint64 <= 0 + 1))
  /\ (ret panicked = Panicked "invalid argument to Int63n"
      /\ sample (inst panicked) - 5 = 0
      /\ ~ (1 <= sample (inst panicked) - 5 <= maxUint64 + 1)).
Proof.
  cbv zeta. repeat split; try (vm_compute; reflexivity).
  - vm_compute. intros [H _]. apply H. reflexivity.
  - vm_compute. intros [H _]. apply H. reflexivity.
Qed.

(** ** The invariant of a session *)

Lemma NextBatch_well_formed (M : Z) (m : MyInstance) (p : MyPlugin)
    (evts : sdk.EventWriters) :
  is_uint64 M -> 0 <= jitter p ->
  well_formed M m -> well_formed M (inst (NextBatch m p evts)).
Proof.
  intros HM HJ. apply NextBatch_invariant; [exact HJ | |].
  - intros m1 (Hmax & Hc & Hs) Hlt. unfold well_formed. cbn.
    rewrite u64_small by (ints; lia). repeat split; try assumption; try lia;
      apply Hs.
  - intros m1 v (Hmax & Hc & Hs) Hlt Hv. unfold well_formed. cbn.
    rewrite (u64_small (counter m1 + 1)) by (ints; lia).
    pose proof (u64_range (sample m1 + (1 + v))) as Hu.
    repeat split; try assumption; try lia; apply Hu.
Qed.

(** Where [start + maxEvents * (jitter + 1)] is a [uint64] no addition to
    [sample] wraps, and a call never lowers [sample]. *)
Lemma NextBatch_monotone (S M : Z) (m : MyInstance) (p : MyPlugin)
    (evts : sdk.EventWriters) :
  is_uint64 M -> 0 <= jitter p ->
  S + M * (jitter p + 1) < two64 ->
  well_formed M m -> within_budget S (jitter p) m ->
  let m' := inst (NextBatch m p evts) in
  well_formed M m' /\ within_budget S (jitter p) m' /\ sample m <= sample m'.
Proof.
  intros HM HJ Hfit Hwf Hbud.
  apply (NextBatch_invariant
           (fun m' => well_formed M m' /\ within_budget S (jitter p) m'
                      /\ sample m <= sample m')); try assumption.
  - intros m1 ((Hmax & Hc & Hs) & Hb & Hle) Hlt.
    unfold well_formed, within_budget in *. cbn.
    rewrite u64_small by (ints; lia).
    repeat split; try tauto; try (ints; lia); nia.
  - intros m1 v ((Hmax & Hc & Hs) & Hb & Hle) Hlt Hv.
    unfold well_formed, within_budget in *. cbn.
    rewrite (u64_small (counter m1 + 1)) by (ints; lia).
    assert (Hsum : sample m1 + (1 + v) <= S + (counter m1 + 1) * (jitter p + 1)) by nia.
    assert (Htop : S + (counter m1 + 1) * (jitter p + 1) <= S + M * (jitter p + 1)) by nia.
    rewrite u64_small by (ints; lia).
    repeat split; try tauto; try (ints; lia).
  - split; [exact Hwf|]. split; [exact Hbud | lia].
Qed.

Lemma session_well_formed (J M : Z) (m0 m : MyInstance) :
  is_uint64 M -> 0 <= J ->
  well_formed M m0 -> session J m0 m -> well_formed M m.
Proof.
  intros HM HJ H0 Hs. induction Hs as [|m p evts _ IH Hp]; [exact H0|].
  apply NextBatch_well_formed; [exact HM | lia | exact IH].
Qed.

Lemma session_monotone (S J M : Z) (m1 m2 : MyInstance) :
  is_uint64 M -> 0 <= J -> S + M * (J + 1) < two64 ->
  well_formed M m1 -> within_budget S J m1 ->
  session J m1 m2 ->
  well_formed M m2 /\ within_budget S J m2 /\ sample m1 <= sample m2.
Proof.
  intros HM HJ Hfit Hwf Hbud Hs.
  induction Hs as [|m p evts _ IH Hp];
    [split; [exact Hwf|]; split; [exact Hbud | lia]|].
  destruct IH as (Hwf' & Hbud' & Hle). subst J.
  destruct (NextBatch_monotone S M m p evts HM HJ Hfit Hwf' Hbud') as (? & ? & ?).
  split; [assumption|]. split; [assumption | lia].
Qed.

(** C7, as amended.  In every state of a session, [counter <= maxEvents].
    When [start + maxEvents * (jitter + 1) < 2^64], so that no addition to
    [sample] can wrap, [sample] never decreases: every state has a sample of at
    least [start], and every later state a sample of at least its own. *)
Theorem session_invariant
    (json : string -> result (gmap string Z)) (prms : string)
    (J : Z) (m0 m : MyInstance) :
  Open json prms = Ok m0 ->
  is_uint64 (maxEvents m0) -> is_uint64 (sample m0) -> 0 <= J ->
  session J m0 m ->
  counter m <= maxEvents m
  /\ (sample m0 + maxEvents m0 * (J + 1) < two64 ->
      sample m0 <= sample m
      /\ forall m', session J m m' -> sample m <= sample m').
Proof.
  intros Hopen HM HS HJ Hs.
  destruct (Open_ok _ _ _ Hopen) as (Hc0 & _).
  assert (Hwf0 : well_formed (maxEvents m0) m0)
    by (repeat split; try assumption; try (ints; lia); apply HS).
  assert (Hbud0 : within_budget (sample m0) J m0)
    by (unfold within_budget; rewrite Hc0; lia).
  pose proof (session_well_formed J _ m0 m HM HJ Hwf0 Hs) as (Hmax & Hc & _).
  split; [lia|]. intros Hfit.
  destruct (session_monotone _ J _ m0 m HM HJ Hfit Hwf0 Hbud0 Hs) as (Hwf & Hbud & Hle).
  split; [exact Hle|]. intros m' Hs'.
  apply (session_monotone _ J _ m m' HM HJ Hfit Hwf Hbud Hs').
Qed.

Lemma session_invariant_witness :
  let m0 := Fixtures.opened 5 3 in
  let m := inst (NextBatch m0 (Fixtures.plugin 10) [Fixtures.accepting]) in
  counter m <= maxEvents m
  /\ (sample m0 + maxEvents m0 * (10 + 1) < two64 ->
      sample m0 <= sample m
      /\ forall m', session 10 m m' -> sample m <= sample m').
Proof.
  intros m0 m.
  apply (session_invariant (Fixtures.decoder 5 3) (Fixtures.params 5 3) 10 m0 m).
  - vm_compute. reflexivity.
  - vm_compute. split; [discriminate | reflexivity].
  - vm_compute. split; [discriminate | reflexivity].
  - lia.
  - apply session_batch; [apply session_opened | reflexivity].
Defined.

(** The claim of C7 fails for [sample]: opened with [start = 2^64 - 1], a
    session has the sample [0] after its first event. *)
Lemma sample_decreases_on_wrap :
  let m0 := Fixtures.opened maxUint64 1 in
  let m := inst (NextBatch m0 (Fixtures.plugin 0) [Fixtures.accepting]) in
  Open (Fixtures.decoder maxUint64 1) (Fixtures.params maxUint64 1) = Ok m0
  /\ session 0 m0 m
  /\ sample m0 = maxUint64 /\ sample m = 0
  /\ ~ (sample m0 <= sample m).
Proof.
  cbv zeta. split; [vm_compute; reflexivity|].
  split; [apply session_batch; [apply session_opened | reflexivity]|].
  split; [reflexivity|]. split; [vm_compute; reflexivity|].
  vm_compute. intros H. apply H. reflexivity.
Qed.

(** ** Write failures *)

(** C4 at a failing input.  A session opened with [start = 10] and
    [maxEvents = 3] is offered two slots, the second of which refuses the
    write.  The call returns [(0, err)]: the payload ["11"] was written, and
    [counter] and [sample] also count the refused event.  The next call writes
    ["13"]: the sample [12] is never delivered, and the session ends after two
    delivered events instead of three. *)
Theorem write_failure_advances_state :
  let m0 := Fixtures.opened 10 3 in
  let p := Fixtures.plugin 0 in
  let failed := NextBatch m0 p [Fixtures.accepting; Fixtures.refusing] in
  let retried :=
    drive (set_rand p (rnd failed)) (inst failed)
      [[Fixtures.accepting]; [Fixtures.accepting]] in
  ret failed = Returned (0, Some (HostError "short write"))
  /\ written failed = ["11"]
  /\ counter (inst failed) = 2
  /\ sample (inst failed) = 12
  /\ map written retried = [["13"]; []]
  /\ map ret retried = [Returned (1, None); Returned (0, Some ErrEOF)].
Proof. cbv zeta. repeat split; vm_compute; reflexivity. Qed.

(** ** The payload of large samples *)

Lemma payload_of_small (x : Z) :
  0 <= x < two63 ->
  payload_of x = strconv.FormatUint x
  /\ is_canonical_numeral (payload_of x)
  /\ decimal_value (payload_of x) 0 = x.
Proof.
  intros Hx. unfold payload_of, int_of_uint64, strconv.Itoa, strconv.FormatInt.
  destruct (Z.ltb_spec x two63); [|lia].
  destruct (Z.ltb_spec x 0); [lia|].
  assert (Hu : is_uint64 x) by (ints; lia).
  split; [reflexivity|]. split.
  - apply strconv_facts.FormatUint_canonical, Hu.
  - apply strconv_facts.FormatUint_value, Hu.
Qed.

(** From [2^63] on the payload is a minus sign and the digits of
    [2^64 - x]. *)
Lemma payload_of_large (x : Z) :
  two63 <= x < two64 ->
  payload_of x = String "-" (strconv.FormatUint (two64 - x))
  /\ ~ is_numeral (payload_of x).
Proof.
  intros Hx. unfold payload_of, int_of_uint64, strconv.Itoa, strconv.FormatInt.
  destruct (Z.ltb_spec x two63); [lia|].
  destruct (Z.ltb_spec (x - two64) 0); [|lia].
  replace (- (x - two64)) with (two64 - x) by lia.
  split; [reflexivity|]. intros [_ Hd]. cbn in Hd. discriminate.
Qed.

(** C8 at a failing input.  A session opened with [start = 2^63 - 1] and
    [jitter = 0] reaches the sample [2^63] with its first event; the payload
    written is ["-9223372036854775808"], which carries a sign and is not the
    decimal rendering ["9223372036854775808"] of the sample. *)
Theorem payload_signed_from_2_63 :
  let b := NextBatch (Fixtures.opened maxInt64 1) (Fixtures.plugin 0)
             [Fixtures.accepting] in
  sample (inst b) = two63
  /\ written b = ["-9223372036854775808"]
  /\ strconv.FormatUint (sample (inst b)) = "9223372036854775808"
  /\ all_digits "-9223372036854775808" = false.
Proof. cbv zeta. repeat split; vm_compute; reflexivity. Qed.

(** ** Field extraction *)

Lemma rem_zero_iff_mod_zero (v d : Z) :
  d <> 0 -> (Z.rem v d =? 0) = (v mod d =? 0).
Proof.
  intros Hd. apply eq_true_iff_eq. rewrite !Z.eqb_eq.
  rewrite Z.rem_divide, Z.mod_divide by exact Hd. reflexivity.
Qed.

(** C5, as amended.  On a payload that [Atoi] decodes to [v]: field 0 with an
    argument that decodes to a divisor [d] other than zero yields the [uint64]
    1 if [v mod d = 0] and 0 otherwise; field 1 yields [v] converted to
    [uint64], which is [v] when [v >= 0] and [v + 2^64] when [v < 0]; field 2
    yields the payload as it is; any other field fails with an error that
    names the field.  The payload ["42"] yields 1 for the argument ["7"], 0 for
    ["5"], 42 as value and ["42"] as string. *)
Theorem extraction_correctness
    (req : sdk.ExtractRequest) (bytes : string) (v : Z) :
  strconv.Atoi bytes = Ok v ->
  let got := Extract req (event_of bytes) in
  (sdk.FieldID req = 0 ->
   forall d, strconv.Atoi (sdk.Arg req) = Ok d -> d <> 0 ->
     got = set_value (sdk.Uint64Value (if v mod d =? 0 then 1 else 0)))
  /\ (sdk.FieldID req = 1 ->
      got = set_value (sdk.Uint64Value (uint64_of_int v))
      /\ (0 <= v -> uint64_of_int v = v)
      /\ (v < 0 -> uint64_of_int v = v + two64))
  /\ (sdk.FieldID req = 2 -> got = set_value (sdk.StringValue bytes))
  /\ (sdk.FieldID req <> 0 -> sdk.FieldID req <> 1 -> sdk.FieldID req <> 2 ->
      got = fail_with (Errorf "no known field: %s" [ArgString (sdk.Field req)]))
  /\ (Extract (Fixtures.request 0 "dummy.divisible" "7") (event_of "42")
        = set_value (sdk.Uint64Value 1)
      /\ Extract (Fixtures.request 0 "dummy.divisible" "5") (event_of "42")
        = set_value (sdk.Uint64Value 0)
      /\ Extract (Fixtures.request 1 "dummy.value" "") (event_of "42")
        = set_value (sdk.Uint64Value 42)
      /\ Extract (Fixtures.request 2 "dummy.strvalue" "") (event_of "42")
        = set_value (sdk.StringValue "42")).
Proof.
  intros Hv got. pose proof (strconv_facts.Atoi_range _ _ Hv) as Hr.
  unfold got, Extract, event_of.
  cbn [ioutil.ReadAll sdk.reader sdk.content sdk.failure]. rewrite Hv.
  split; [|split; [|split; [|split]]].
  - intros -> d Hd Hne. cbn [Z.eqb]. rewrite Hd.
    destruct (Z.eqb_spec d 0); [contradiction|].
    rewrite rem_zero_iff_mod_zero by exact Hne.
    destruct (v mod d =? 0); reflexivity.
  - intros ->. cbn [Z.eqb Pos.eqb]. split; [reflexivity|]. split; intros Hs.
    + apply uint64_of_int_nonneg. ints. lia.
    + apply uint64_of_int_neg. ints. lia.
  - intros ->. reflexivity.
  - intros H0 H1 H2.
    destruct (Z.eqb_spec (sdk.FieldID req) 0); [contradiction|].
    destruct (Z.eqb_spec (sdk.FieldID req) 1); [contradiction|].
    destruct (Z.eqb_spec (sdk.FieldID req) 2); [contradiction|].
    reflexivity.
  - repeat split; vm_compute; reflexivity.
Qed.

Lemma extraction_correctness_witness :
  Extract (Fixtures.request 0 "dummy.divisible" "-3") (event_of "-42")
  = set_value (sdk.Uint64Value (if (-42) mod (-3) =? 0 then 1 else 0)).
Proof.
  destruct (extraction_correctness
              (Fixtures.request 0 "dummy.divisible" "-3") "-42" (-42))
    as (Hdivisible & _).
  - vm_compute. reflexivity.
  - apply (Hdivisible eq_refl (-3)).
    + vm_compute. reflexivity.
    + discriminate.
Defined.

(** The claim of C5 fails on a payload with a minus sign: ["-5"] decodes to
    [-5], and field 1 yields [2^64 - 5], not the decoded integer.  It also
    fails for an argument that decodes to the divisor zero, where [Extract]
    sets no value: on ["0"], which [0 mod 0 = 0] would give 1, it panics. *)
Lemma extraction_departs_from_claim :
  (strconv.Atoi "-5" = Ok (-5)
   /\ Extract (Fixtures.request 1 "dummy.value" "") (event_of "-5")
      = set_value (sdk.Uint64Value 18446744073709551611)
   /\ Extract (Fixtures.request 1 "dummy.value" "") (event_of "-5")
      <> set_value (sdk.Uint64Value (-5)))
  /\ (strconv.Atoi "0" = Ok 0
      /\ Extract (Fixtures.request 0 "dummy.divisible" "0") (event_of "0")
         = Panicked "integer divide by zero"
      /\ Extract (Fixtures.request 0 "dummy.divisible" "0") (event_of "0")
         <> set_value (sdk.Uint64Value (if 0 mod 0 =? 0 then 1 else 0))).
Proof.
  repeat split; try (vm_compute; reflexivity); vm_compute; discriminate.
Qed.

(** ** The zero divisor *)

Lemma Extract_zero_divisor (req : sdk.ExtractRequest) (bytes : string) (v : Z) :
  strconv.Atoi bytes = Ok v -> sdk.FieldID req = 0 ->
  strconv.Atoi (sdk.Arg req) = Ok 0 ->
  Extract req (event_of bytes) = Panicked "integer divide by zero".
Proof.
  intros Hv Hid Harg. unfold Extract, event_of.
  cbn [ioutil.ReadAll sdk.reader sdk.content sdk.failure].
  rewrite Hv, Hid, Harg. reflexivity.
Qed.

(** C6 at a failing input.  [dummy.divisible] with the argument ["0"] on the
    payload ["42"]: the argument decodes to the divisor 0, [evtVal % divisor]
    is evaluated, and the call ends in the run-time panic of the division; no
    error is returned. *)
Theorem zero_divisor_panics :
  strconv.Atoi "0" = Ok 0
  /\ Extract (Fixtures.request 0 "dummy.divisible" "0") (event_of "42")
     = Panicked "integer divide by zero"
  /\ forall e, Extract (Fixtures.request 0 "dummy.divisible" "0") (event_of "42")
               <> fail_with e.
Proof.
  split; [vm_compute; reflexivity|].
  rewrite (Extract_zero_divisor _ "42" 42) by (vm_compute; reflexivity).
  split; [reflexivity | discriminate].
Qed.

(** ** Signed decoding of the payload *)

(** C9.  For an unsigned numeral [ds] of value [n]: the payload ["-" ++ ds]
    is accepted whenever [n <= 2^63], it decodes to [-n], and [dummy.value]
    yields [-n] modulo [2^64]; the payload [ds] itself is rejected with the
    range error of [Atoi], for every field, as soon as [n] exceeds the largest
    [int], [2^63 - 1].  So ["-5"] yields [2^64 - 5], and
    ["18446744073709551615"] is rejected. *)
Theorem signed_payload_decoding (ds : string) :
  is_numeral ds ->
  let n := decimal_value ds 0 in
  (n <= two63 ->
   strconv.Atoi (String "-" ds) = Ok (- n)
   /\ Extract value_request (event_of (String "-" ds))
      = set_value (sdk.Uint64Value ((- n) mod two64)))
  /\ (maxInt64 < n ->
      forall req, Extract req (event_of ds) = fail_with (NumError "Atoi" ds ErrRange))
  /\ Extract value_request (event_of "-5")
     = set_value (sdk.Uint64Value (two64 - 5))
  /\ (is_numeral "18446744073709551615"
      /\ forall req, Extract req (event_of "18446744073709551615")
           = fail_with (NumError "Atoi" "18446744073709551615" ErrRange)).
Proof.
  intros Hnum n.
  assert (Hbig : forall s, is_numeral s -> maxInt64 < decimal_value s 0 ->
            forall req, Extract req (event_of s) = fail_with (NumError "Atoi" s ErrRange)).
  { intros s Hs Hover req. unfold Extract, event_of.
    cbn [ioutil.ReadAll sdk.reader sdk.content sdk.failure].
    rewrite (strconv_facts.Atoi_numeral s Hs).
    destruct (Z.ltb_spec (decimal_value s 0) two63); [ints; lia | reflexivity]. }
  split; [|split; [|split; [|split]]].
  - intros Hfit.
    assert (E : strconv.Atoi (String "-" ds) = Ok (- n)).
    { rewrite (strconv_facts.Atoi_minus_numeral ds Hnum). fold n.
      destruct (Z.leb_spec n two63); [reflexivity | lia]. }
    split; [exact E|]. unfold Extract, event_of.
    cbn [ioutil.ReadAll sdk.reader sdk.content sdk.failure].
    rewrite E. reflexivity.
  - apply Hbig, Hnum.
  - vm_compute. reflexivity.
  - split; [discriminate | reflexivity].
  - apply Hbig; [split; [discriminate | reflexivity] | vm_compute; reflexivity].
Qed.

Lemma signed_payload_decoding_witness :
  strconv.Atoi "-5" = Ok (- 5)
  /\ Extract value_request (event_of "-5")
     = set_value (sdk.Uint64Value ((- 5) mod two64)).
Proof.
  destruct (signed_payload_decoding "5") as (Hminus & _).
  - split; [discriminate | reflexivity].
  - apply Hminus. vm_compute. discriminate.
Defined.

(** ** Rendering *)

(** C10.  [String] returns the error of the read, and no other: it fails
    exactly when reading the stream fails.  When the read succeeds the text is
    [{"sample": "] followed by the bytes read, as they are, and ["}]; the bytes
    need not be a number. *)
Theorem String_renders_any_bytes (in_ : sdk.Reader) :
  snd (String_ in_) = sdk.failure in_
  /\ fst (String_ in_) =
     match sdk.failure in_ with
     | Some _ => ""
     | None =>
         String "{" (String "034" ("sample" ++ String "034" (": " ++ String "034"
           (sdk.content in_ ++ String "034" "}"))))
     end
  /\ String_ {| sdk.content := "n/a"; sdk.failure := None |}
     = (String "{" (String "034" ("sample" ++ String "034" (": " ++ String "034"
          ("n/a" ++ String "034" "}")))), None).
Proof.
  unfold String_, ioutil.ReadAll.
  destruct in_ as [bytes [e|]]; cbn [sdk.content sdk.failure fst snd];
    repeat split; reflexivity.
Qed.

(** * Further properties of the plugin *)

(** Splits a conjunction into its parts, and nothing else. *)
Ltac conjs := repeat match goal with |- _ /\ _ => split end.

(** Closes the routine parts. *)
Ltac settle :=
  first [ reflexivity | assumption | lia | (do 2 f_equal; lia)
        | (left; first [reflexivity | lia])
        | (right; first [assumption | lia]) ].

(** ** The accounts of a call *)

(** With a valid jitter the loop ends in one of two ways.  Either it returns
    without error: the count grows by the number of payloads written, and so do
    [counter] and the cursor of the random source, and the loop stopped for want
    of slots or of events.  Or a slot refused the payload of the sample the
    instance is left at: [counter] and the cursor also count that event. *)
Lemma NextBatch_loop_account (J : Z) (evts : sdk.EventWriters) :
  valid_jitter J ->
  forall n m r out,
    is_uint64 (maxEvents m) -> 0 <= counter m <= maxEvents m ->
    let b := NextBatch_loop J evts n m r out in
    exists w : list string,
      written b = (out ++ w)%list
      /\ (length w <= length evts)%nat
      /\ maxEvents (inst b) = maxEvents m
      /\ initParams (inst b) = initParams m
      /\ rand.draws (rnd b) = rand.draws r
      /\ counter (inst b) <= maxEvents m
      /\ ((ret b = Returned (n + Z.of_nat (length w), None)
           /\ counter (inst b) = counter m + Z.of_nat (length w)
           /\ rand.cursor (rnd b) = (rand.cursor r + length w)%nat
           /\ (length w = length evts \/ counter (inst b) = maxEvents m))
          \/ (exists e evt,
                ret b = Returned (0, Some e)
                /\ evts !! length w = Some evt
                /\ sdk.Write evt (payload_of (sample (inst b))) = Some e
                /\ counter (inst b) = counter m + Z.of_nat (length w) + 1
                /\ rand.cursor (rnd b) = (rand.cursor r + length w + 1)%nat)).
Proof.
  intros HJ. induction evts as [|evt evts IH]; intros n m r out HM Hc;
    cbn [NextBatch_loop].
  - exists []. cbn. rewrite app_nil_r.
    conjs; try settle. left. conjs; settle.
  - destruct (Z.ltb_spec (counter m) (maxEvents m)) as [Hlt|Hge].
    2:{ exists []. cbn. rewrite app_nil_r.
        conjs; try settle. left. conjs; settle. }
    destruct (Int63n_valid J r HJ) as (v & -> & Hv).
    set (m2 := set_sample _ _).
    assert (Ec : counter m2 = counter m + 1)
      by (cbn; apply u64_small; ints; lia).
    destruct (sdk.Write evt _) as [err|] eqn:Hw.
    + exists []. cbn [written inst rnd ret length]. rewrite app_nil_r.
      conjs; try settle.
      right. exists err, evt. conjs; try settle.
      cbn [rand.advance rand.cursor]. lia.
    + destruct (IH (n + 1) m2 (rand.advance r)
                  (out ++ [strconv.Itoa (int_of_uint64 (sample m2))])%list)
        as (w & Hwr & Hlen & Hmax & Hini & Hdr & Hle & Hcase);
        [exact HM | change (maxEvents m2) with (maxEvents m); lia |].
      change (maxEvents m2) with (maxEvents m) in *.
      change (initParams m2) with (initParams m) in *.
      change (rand.draws (rand.advance r)) with (rand.draws r) in *.
      exists (strconv.Itoa (int_of_uint64 (sample m2)) :: w).
      cbn zeta in *. rewrite Hwr, <- app_assoc. cbn [app length].
      conjs; try settle.
      destruct Hcase as [(Hret & Hcnt & Hcur & Hstop)
                        | (e & evt' & Hret & Hevt & Hwe & Hcnt & Hcur)].
      * left. rewrite Hret, Hcnt, Hcur, Ec. cbn [rand.advance rand.cursor].
        conjs; try settle;
          (destruct Hstop as [Hs|Hs]; [left; lia | right; exact Hs]).
      * right. exists e, evt'. rewrite Hret, Hcnt, Hcur, Ec.
        cbn [rand.advance rand.cursor].
        conjs; settle.
Qed.

Lemma Int63n_invalid (J : Z) (r : rand.Rand) :
  is_uint64 J -> maxInt64 <= J ->
  rand.Int63n r (int_of_uint64 (u64 (J + 1))) = None.
Proof.
  intros HJ Hbig. unfold rand.Int63n.
  assert (Hn : int_of_uint64 (u64 (J + 1)) <= 0).
  { destruct (Z.eq_dec (J + 1) two64) as [E|E].
    - rewrite E. vm_compute. discriminate.
    - rewrite u64_small by (ints; lia). unfold int_of_uint64.
      destruct (Z.ltb_spec (J + 1) two63); ints; lia. }
  destruct (Z.leb_spec (int_of_uint64 (u64 (J + 1))) 0); [reflexivity | lia].
Qed.

Lemma valid_or_oversized (J : Z) :
  is_uint64 J -> valid_jitter J \/ maxInt64 <= J.
Proof. unfold valid_jitter. ints. lia. Qed.

(** The call of a session that is not exhausted, on no slot at all. *)
Lemma NextBatch_no_slots (m : MyInstance) (p : MyPlugin) :
  counter m < maxEvents m ->
  NextBatch m p [] =
    {| ret := Returned (0, None); inst := m; rnd := rand p; written := [] |}.
Proof.
  intros H. unfold NextBatch.
  destruct (Z.leb_spec (maxEvents m) (counter m)); [lia | reflexivity].
Qed.

(** The call that has to produce with a jitter beyond [2^63 - 2]. *)
Lemma NextBatch_oversized_jitter (m : MyInstance) (p : MyPlugin)
    (evts : sdk.EventWriters) :
  is_uint64 (jitter p) -> maxInt64 <= jitter p ->
  counter m < maxEvents m -> evts <> [] ->
  NextBatch m p evts =
    {| ret := Panicked "invalid argument to Int63n";
       inst := set_counter m (u64 (counter m + 1));
       rnd := rand p; written := [] |}.
Proof.
  intros HJ Hbig Hlt Hne. unfold NextBatch.
  destruct (Z.leb_spec (maxEvents m) (counter m)); [lia|].
  destruct evts as [|evt evts]; [congruence|]. cbn [NextBatch_loop].
  destruct (Z.ltb_spec (counter m) (maxEvents m)); [|lia].
  rewrite Int63n_invalid by assumption. reflexivity.
Qed.

(** The three ways a call ends with a valid jitter: at the end of the stream,
    without error, or on a refused write. *)
Lemma NextBatch_account (m : MyInstance) (p : MyPlugin) (evts : sdk.EventWriters) :
  valid_jitter (jitter p) ->
  is_uint64 (maxEvents m) -> 0 <= counter m <= maxEvents m ->
  let b := NextBatch m p evts in
  let w := length (written b) in
  (w <= length evts)%nat
  /\ maxEvents (inst b) = maxEvents m
  /\ initParams (inst b) = initParams m
  /\ rand.draws (rnd b) = rand.draws (rand p)
  /\ counter (inst b) <= maxEvents m
  /\ ((maxEvents m <= counter m /\ b = eof m p)
      \/ (counter m < maxEvents m
          /\ ret b = Returned (Z.of_nat w, None)
          /\ counter (inst b) = counter m + Z.of_nat w
          /\ rand.cursor (rnd b) = (rand.cursor (rand p) + w)%nat
          /\ (w = length evts \/ counter (inst b) = maxEvents m))
      \/ (counter m < maxEvents m
          /\ exists e evt,
               ret b = Returned (0, Some e)
               /\ evts !! w = Some evt
               /\ sdk.Write evt (payload_of (sample (inst b))) = Some e
               /\ counter (inst b) = counter m + Z.of_nat w + 1
               /\ rand.cursor (rnd b) = (rand.cursor (rand p) + w + 1)%nat)).
Proof.
  intros HJ HM Hc. unfold NextBatch.
  destruct (Z.leb_spec (maxEvents m) (counter m)) as [Hdone|Hmore].
  - cbn. conjs; try settle. left. split; [exact Hdone | reflexivity].
  - destruct (NextBatch_loop_account _ evts HJ 0 m (rand p) [] HM Hc)
      as (w & Hwr & Hlen & Hmax & Hini & Hdr & Hle & Hcase).
    cbn zeta in *. rewrite Hwr. cbn [app].
    conjs; try assumption.
    destruct Hcase as [(Hret & Hcnt & Hcur & Hstop)
                      | (e & evt & Hret & Hevt & Hwe & Hcnt & Hcur)].
    + right. left. rewrite Hret. conjs; try assumption; reflexivity.
    + right. right. split; [exact Hmore|]. exists e, evt. conjs; assumption.
Qed.

(** ** Capacity *)

(** X1.  Whatever the slots do and whatever the jitter, a call reports and
    writes no more events than it was given slots and than the session has
    left, [counter] grows by at most the number of slots and stays within
    [maxEvents], and [maxEvents] and [initParams] are not touched. *)
Theorem capacity_respected (m : MyInstance) (p : MyPlugin) (evts : sdk.EventWriters) :
  is_uint64 (jitter p) ->
  is_uint64 (maxEvents m) -> 0 <= counter m <= maxEvents m ->
  let b := NextBatch m p evts in
  let room := Z.min (Z.of_nat (length evts)) (maxEvents m - counter m) in
  0 <= reported b <= room
  /\ Z.of_nat (length (written b)) <= room
  /\ counter m <= counter (inst b) <= maxEvents m
  /\ counter (inst b) - counter m <= Z.of_nat (length evts)
  /\ maxEvents (inst b) = maxEvents m
  /\ initParams (inst b) = initParams m.
Proof.
  intros HJ HM Hc b room. unfold room.
  destruct (valid_or_oversized _ HJ) as [Hv|Hbig].
  - destruct (NextBatch_account m p evts Hv HM Hc)
      as (Hlen & Hmax & Hini & _ & Hle & Hcase).
    fold b in Hlen, Hmax, Hini, Hle, Hcase.
    destruct Hcase as [(Hdone & E) | [(Hlt & Hret & Hcnt & _ & _)
                      | (Hlt & e & evt & Hret & Hevt & _ & Hcnt & _)]].
    + unfold reported. rewrite E. cbn [eof ret inst written length].
      conjs; settle.
    + unfold reported. rewrite Hret. conjs; settle.
    + apply lookup_lt_Some in Hevt.
      unfold reported. rewrite Hret. conjs; settle.
  - destruct (Z.le_gt_cases (maxEvents m) (counter m)) as [Hdone|Hlt].
    + unfold b, reported. rewrite NextBatch_exhausted by exact Hdone.
      cbn [eof ret inst written length]. conjs; settle.
    + destruct evts as [|evt evts].
      * unfold b, reported. rewrite NextBatch_no_slots by lia.
        cbn [ret inst written length]. conjs; settle.
      * unfold b, reported.
        rewrite NextBatch_oversized_jitter
          by (try assumption; try lia; discriminate).
        cbn [ret inst written length set_counter counter maxEvents initParams].
        rewrite u64_small by (ints; lia). conjs; settle.
Qed.

Lemma capacity_respected_witness :
  let b := NextBatch (Fixtures.opened 5 3) (Fixtures.plugin 10)
             [Fixtures.accepting; Fixtures.refusing; Fixtures.accepting] in
  0 <= reported b <= Z.min 3 (3 - 0).
Proof.
  intros b.
  destruct (capacity_respected (Fixtures.opened 5 3) (Fixtures.plugin 10)
              [Fixtures.accepting; Fixtures.refusing; Fixtures.accepting])
    as (Hrep & _).
  - vm_compute. split; [discriminate | reflexivity].
  - vm_compute. split; [discriminate | reflexivity].
  - vm_compute. split; discriminate.
  - exact Hrep.
Defined.

(** ** The end of the stream *)

(** X2.  With slots whose writers never report [ErrEOF] themselves, a call
    returns [ErrEOF] exactly when the session was exhausted on entry, and then
    it is the batch [eof]: the call that produces the last event still returns
    without error, and the end of the stream is reported by the call after
    it. *)
Theorem eof_only_when_exhausted (m : MyInstance) (p : MyPlugin)
    (evts : sdk.EventWriters) :
  is_uint64 (jitter p) ->
  is_uint64 (maxEvents m) -> 0 <= counter m <= maxEvents m ->
  Forall never_eof evts ->
  let b := NextBatch m p evts in
  ((exists n, ret b = Returned (n, Some ErrEOF)) <-> maxEvents m <= counter m)
  /\ (maxEvents m <= counter m -> b = eof m p).
Proof.
  intros HJ HM Hc Hne b. split; [split|].
  - intros [n Hret].
    destruct (Z.le_gt_cases (maxEvents m) (counter m)) as [Hdone|Hlt]; [exact Hdone|].
    exfalso. destruct (valid_or_oversized _ HJ) as [Hv|Hbig].
    + destruct (NextBatch_account m p evts Hv HM Hc) as (_ & _ & _ & _ & _ & Hcase).
      fold b in Hcase.
      destruct Hcase as [(Hdone & _) | [(_ & Hret' & _)
                        | (_ & e & evt & Hret' & Hevt & Hwr & _)]].
      * lia.
      * rewrite Hret' in Hret. discriminate.
      * rewrite Hret' in Hret. injection Hret as _ ->.
        rewrite Forall_forall in Hne.
        exact (Hne evt (list_elem_of_lookup_2 _ _ _ Hevt) _ Hwr).
    + destruct evts as [|evt evts].
      * unfold b in Hret. rewrite NextBatch_no_slots in Hret by lia. discriminate.
      * unfold b in Hret.
        rewrite NextBatch_oversized_jitter in Hret
          by (try assumption; try lia; discriminate).
        discriminate.
  - intros Hdone. unfold b. rewrite NextBatch_exhausted by exact Hdone.
    exists 0. reflexivity.
  - intros Hdone. apply NextBatch_exhausted, Hdone.
Qed.

Lemma eof_only_when_exhausted_witness :
  let m := inst (NextBatch (Fixtures.opened 5 1) (Fixtures.plugin 10)
                   [Fixtures.accepting]) in
  NextBatch m (Fixtures.plugin 10) [Fixtures.refusing] = eof m (Fixtures.plugin 10).
Proof.
  intros m.
  apply (eof_only_when_exhausted m (Fixtures.plugin 10) [Fixtures.refusing]).
  - vm_compute. split; [discriminate | reflexivity].
  - vm_compute. split; [discriminate | reflexivity].
  - vm_compute. split; discriminate.
  - repeat constructor. intros bytes. discriminate.
  - vm_compute. discriminate.
Defined.

(** ** Calls made on the random source *)

(** X3.  With a valid jitter a call makes one call of [Int63n] on the
    random source for each event it counts, whether the write of the event
    succeeds or not, and none when the session is exhausted: the number of
    calls made on the source grows by the growth of [counter], and what the
    source yields for the calls to come is not touched. *)
Theorem one_Int63n_call_per_event (m : MyInstance) (p : MyPlugin) (evts : sdk.EventWriters) :
  valid_jitter (jitter p) ->
  is_uint64 (maxEvents m) -> 0 <= counter m <= maxEvents m ->
  let b := NextBatch m p evts in
  rand.draws (rnd b) = rand.draws (rand p)
  /\ Z.of_nat (rand.cursor (rnd b))
     = Z.of_nat (rand.cursor (rand p)) + (counter (inst b) - counter m).
Proof.
  intros HJ HM Hc b.
  destruct (NextBatch_account m p evts HJ HM Hc) as (_ & _ & _ & Hdr & _ & Hcase).
  fold b in Hdr, Hcase. split; [exact Hdr|].
  destruct Hcase as [(_ & E) | [(_ & _ & Hcnt & Hcur & _)
                    | (_ & e & evt & _ & _ & _ & Hcnt & Hcur)]].
  - rewrite E. cbn. lia.
  - rewrite Hcnt, Hcur. lia.
  - rewrite Hcnt, Hcur. lia.
Qed.

Lemma one_Int63n_call_per_event_witness :
  let b := NextBatch (Fixtures.opened 5 3) (Fixtures.plugin 10)
             [Fixtures.accepting; Fixtures.refusing; Fixtures.accepting] in
  Z.of_nat (rand.cursor (rnd b))
  = Z.of_nat (rand.cursor (rand (Fixtures.plugin 10)))
    + (counter (inst b) - counter (Fixtures.opened 5 3)).
Proof.
  intros b.
  apply (one_Int63n_call_per_event (Fixtures.opened 5 3) (Fixtures.plugin 10)
           [Fixtures.accepting; Fixtures.refusing; Fixtures.accepting]).
  - vm_compute. split; [discriminate | reflexivity].
  - vm_compute. split; [discriminate | reflexivity].
  - vm_compute. split; discriminate.
Defined.

(** ** What a call reports *)

(** X4.  With a valid jitter, a call that returns without error reports
    exactly the payloads it wrote, has advanced [counter] by that number, and
    stopped because the slots or the events ran out.  A call that returns an
    error reports zero events: either it is the end of the stream and nothing
    changed, or a slot refused the payload of the sample the instance is left
    at, the error is the one of that slot, and [counter] has advanced by the
    payloads written before and by the refused event. *)
Theorem report_matches_writes (m : MyInstance) (p : MyPlugin)
    (evts : sdk.EventWriters) :
  valid_jitter (jitter p) ->
  is_uint64 (maxEvents m) -> 0 <= counter m <= maxEvents m ->
  let b := NextBatch m p evts in
  let w := length (written b) in
  (forall msg, ret b <> Panicked msg)
  /\ (forall n, ret b = Returned (n, None) ->
        n = Z.of_nat w
        /\ counter (inst b) = counter m + n
        /\ (w = length evts \/ counter (inst b) = maxEvents m))
  /\ (forall n e, ret b = Returned (n, Some e) ->
        n = 0
        /\ ((e = ErrEOF /\ maxEvents m <= counter m /\ b = eof m p)
            \/ (exists evt,
                  evts !! w = Some evt
                  /\ sdk.Write evt (payload_of (sample (inst b))) = Some e
                  /\ counter (inst b) = counter m + Z.of_nat w + 1))).
Proof.
  intros HJ HM Hc b w.
  destruct (NextBatch_account m p evts HJ HM Hc) as (_ & _ & _ & _ & _ & Hcase).
  fold b in Hcase. fold w in Hcase.
  destruct Hcase as [(Hdone & E) | [(_ & Hret & Hcnt & _ & Hstop)
                    | (_ & e & evt & Hret & Hevt & Hwr & Hcnt & _)]].
  - assert (Hret : ret b = Returned (0, Some ErrEOF)) by (rewrite E; reflexivity).
    conjs.
    + intros msg. rewrite Hret. discriminate.
    + intros n Hn. rewrite Hret in Hn. discriminate.
    + intros n e Hn. rewrite Hret in Hn. injection Hn as <- <-.
      split; [reflexivity|]. left. conjs; auto.
  - conjs.
    + intros msg. rewrite Hret. discriminate.
    + intros n Hn. rewrite Hret in Hn. injection Hn as <-. conjs; assumption || reflexivity.
    + intros n e Hn. rewrite Hret in Hn. discriminate.
  - conjs.
    + intros msg. rewrite Hret. discriminate.
    + intros n Hn. rewrite Hret in Hn. discriminate.
    + intros n e' Hn. rewrite Hret in Hn. injection Hn as <- <-.
      split; [reflexivity|]. right. exists evt. conjs; assumption.
Qed.

Lemma report_matches_writes_witness :
  let b := NextBatch (Fixtures.opened 5 3) (Fixtures.plugin 10)
             [Fixtures.accepting; Fixtures.refusing; Fixtures.accepting] in
  counter (inst b) = 0 + Z.of_nat (length (written b)) + 1.
Proof.
  intros b.
  destruct (report_matches_writes (Fixtures.opened 5 3) (Fixtures.plugin 10)
              [Fixtures.accepting; Fixtures.refusing; Fixtures.accepting])
    as (_ & _ & Herr).
  - vm_compute. split; [discriminate | reflexivity].
  - vm_compute. split; [discriminate | reflexivity].
  - vm_compute. split; discriminate.
  - destruct (Herr 0 (HostError "short write") eq_refl)
      as (_ & [(Heof & _) | (evt & _ & _ & Hcnt)]).
    + discriminate Heof.
    + exact Hcnt.
Defined.

(** ** Panics of [NextBatch] *)

(** X5.  A call panics exactly when the jitter is [2^63 - 1] or more, the
    session is not exhausted and there is a slot to fill.  The panic comes
    before any draw and any write: [counter] has been incremented, and nothing
    else has changed. *)
Theorem panic_only_on_oversized_jitter (m : MyInstance) (p : MyPlugin)
    (evts : sdk.EventWriters) :
  is_uint64 (jitter p) ->
  is_uint64 (maxEvents m) -> 0 <= counter m <= maxEvents m ->
  let b := NextBatch m p evts in
  ((exists msg, ret b = Panicked msg)
   <-> (maxInt64 <= jitter p /\ counter m < maxEvents m /\ evts <> []))
  /\ (forall msg, ret b = Panicked msg ->
        written b = [] /\ rnd b = rand p
        /\ counter (inst b) = counter m + 1
        /\ sample (inst b) = sample m).
Proof.
  intros HJ HM Hc b.
  assert (Hpanic : maxInt64 <= jitter p -> counter m < maxEvents m -> evts <> [] ->
            b = {| ret := Panicked "invalid argument to Int63n";
                   inst := set_counter m (u64 (counter m + 1));
                   rnd := rand p; written := [] |})
    by (intros; apply NextBatch_oversized_jitter; assumption).
  assert (Hiff : (exists msg, ret b = Panicked msg)
                 -> maxInt64 <= jitter p /\ counter m < maxEvents m /\ evts <> []).
  { intros [msg Hret].
    destruct (valid_or_oversized _ HJ) as [Hv|Hbig].
    - exfalso.
      destruct (NextBatch_account m p evts Hv HM Hc) as (_ & _ & _ & _ & _ & Hcase).
      fold b in Hcase.
      destruct Hcase as [(_ & E) | [(_ & Hret' & _) | (_ & e & evt & Hret' & _)]].
      + rewrite E in Hret. discriminate.
      + rewrite Hret' in Hret. discriminate.
      + rewrite Hret' in Hret. discriminate.
    - destruct (Z.le_gt_cases (maxEvents m) (counter m)) as [Hdone|Hlt].
      + unfold b in Hret. rewrite NextBatch_exhausted in Hret by exact Hdone.
        discriminate.
      + destruct evts as [|evt evts].
        * unfold b in Hret. rewrite NextBatch_no_slots in Hret by lia. discriminate.
        * conjs; try assumption. discriminate. }
  split; [split; [exact Hiff|]|].
  - intros (Hbig & Hlt & Hne). rewrite (Hpanic Hbig Hlt Hne). eexists. reflexivity.
  - intros msg Hret. destruct (Hiff (ex_intro _ msg Hret)) as (Hbig & Hlt & Hne).
    rewrite (Hpanic Hbig Hlt Hne). cbn.
    rewrite u64_small by (ints; lia). conjs; reflexivity.
Qed.

Lemma panic_only_on_oversized_jitter_witness :
  exists msg,
    ret (NextBatch (Fixtures.opened 5 3) (Fixtures.plugin maxInt64)
           [Fixtures.accepting]) = Panicked msg.
Proof.
  apply (panic_only_on_oversized_jitter (Fixtures.opened 5 3)
           (Fixtures.plugin maxInt64) [Fixtures.accepting]).
  - vm_compute. split; [discriminate | reflexivity].
  - vm_compute. split; [discriminate | reflexivity].
  - vm_compute. split; discriminate.
  - split; [vm_compute; discriminate|]. split; [reflexivity | discriminate].
Defined.

(** ** Zero jitter and the shared source *)

Lemma Int63n_one (r : rand.Rand) :
  rand.Int63n r (int_of_uint64 (u64 (0 + 1))) = Some (0, rand.advance r).
Proof.
  change (int_of_uint64 (u64 (0 + 1))) with 1. unfold rand.Int63n. cbn [Z.leb Z.compare].
  rewrite Z.mod_1_r. reflexivity.
Qed.

Lemma NextBatch_loop_zero_jitter_source (evts : sdk.EventWriters) :
  forall n m r r' out,
    let b := NextBatch_loop 0 evts n m r out in
    let b' := NextBatch_loop 0 evts n m r' out in
    ret b = ret b' /\ inst b = inst b' /\ written b = written b'.
Proof.
  induction evts as [|evt evts IH]; intros n m r r' out; cbn [NextBatch_loop].
  - cbn. auto.
  - destruct (counter m <? maxEvents m); [|cbn; auto].
    rewrite !Int63n_one.
    destruct (sdk.Write evt _); [cbn; auto|]. apply IH.
Qed.

(** X6.  With a jitter of zero, what a call returns, the instance it leaves
    and the payloads it writes do not depend on the state of the random source:
    sessions that share the source of one plugin do not influence each other's
    events, in whatever order their calls are made. *)
Theorem zero_jitter_ignores_source
    (m : MyInstance) (r r' : rand.Rand) (evts : sdk.EventWriters) :
  let b := NextBatch m {| jitter := 0; rand := r |} evts in
  let b' := NextBatch m {| jitter := 0; rand := r' |} evts in
  ret b = ret b' /\ inst b = inst b' /\ written b = written b'.
Proof.
  unfold NextBatch. cbn [jitter rand].
  destruct (maxEvents m <=? counter m); [cbn; auto|].
  apply NextBatch_loop_zero_jitter_source.
Qed.

(** ** Batches and their slots *)

Lemma NextBatch_loop_exhausted (J : Z) (evts : sdk.EventWriters) (n : Z)
    (m : MyInstance) (r : rand.Rand) (out : list string) :
  maxEvents m <= counter m ->
  NextBatch_loop J evts n m r out =
    {| ret := Returned (n, None); inst := m; rnd := r; written := out |}.
Proof.
  intros H. destruct evts as [|evt evts]; cbn [NextBatch_loop]; [reflexivity|].
  destruct (Z.ltb_spec (counter m) (maxEvents m)); [lia | reflexivity].
Qed.

(** The loop over [evts1 ++ evts2] is the loop over [evts1], continued over
    [evts2] unless it ended on an error or a panic. *)
Lemma NextBatch_loop_app (J : Z) (evts1 evts2 : sdk.EventWriters) :
  forall n m r out,
    NextBatch_loop J (evts1 ++ evts2)%list n m r out =
      let b1 := NextBatch_loop J evts1 n m r out in
      match ret b1 with
      | Returned (n1, None) =>
          NextBatch_loop J evts2 n1 (inst b1) (rnd b1) (written b1)
      | _ => b1
      end.
Proof.
  induction evts1 as [|evt evts1 IH]; intros n m r out.
  - reflexivity.
  - change ((evt :: evts1) ++ evts2)%list with (evt :: (evts1 ++ evts2))%list.
    cbn [NextBatch_loop].
    destruct (Z.ltb_spec (counter m) (maxEvents m)) as [Hlt|Hge].
    + destruct (rand.Int63n r _) as [[v r']|]; [|reflexivity].
      destruct (sdk.Write evt _); [reflexivity|]. apply IH.
    + cbn [ret inst rnd written]. symmetry. apply NextBatch_loop_exhausted. lia.
Qed.

(** The count on entry and the payloads already written only shift the
    result of the loop. *)
Lemma NextBatch_loop_shift (J : Z) (evts : sdk.EventWriters) :
  forall n m r out,
    NextBatch_loop J evts n m r out = shift n out (NextBatch_loop J evts 0 m r []).
Proof.
  induction evts as [|evt evts IH]; intros n m r out; cbn [NextBatch_loop].
  - unfold shift. cbn. rewrite Z.add_0_r, app_nil_r. reflexivity.
  - destruct (counter m <? maxEvents m).
    2:{ unfold shift. cbn. rewrite Z.add_0_r, app_nil_r. reflexivity. }
    destruct (rand.Int63n r _) as [[v r']|].
    2:{ unfold shift. cbn. rewrite app_nil_r. reflexivity. }
    destruct (sdk.Write evt _).
    { unfold shift. cbn. rewrite app_nil_r. reflexivity. }
    rewrite (IH (n + 1)), (IH (0 + 1)).
    unfold shift. cbn [ret inst rnd written].
    rewrite <- app_assoc. cbn [app].
    destruct (ret (NextBatch_loop J evts 0 _ r' [])) as [[k [e|]]|msg];
      try reflexivity.
    do 3 f_equal. lia.
Qed.

(** Offering the slots [evts1 ++ evts2] in one call or in two calls comes to
    the same, when no write is refused. *)
Lemma NextBatch_app (m : MyInstance) (p : MyPlugin) (evts1 evts2 : sdk.EventWriters) :
  valid_jitter (jitter p) ->
  Forall accepts_all evts1 -> Forall accepts_all evts2 ->
  is_uint64 (maxEvents m) -> 0 <= counter m <= maxEvents m ->
  let b1 := NextBatch m p evts1 in
  let b2 := NextBatch (inst b1) (set_rand p (rnd b1)) evts2 in
  let b := NextBatch m p (evts1 ++ evts2)%list in
  written b = (written b1 ++ written b2)%list
  /\ inst b = inst b2
  /\ rnd b = rnd b2
  /\ reported b = reported b1 + reported b2.
Proof.
  intros HJ Ha1 Ha2 HM Hc.
  destruct (Z.le_gt_cases (maxEvents m) (counter m)) as [Hdone|Hlt].
  - cbn zeta. rewrite !(NextBatch_exhausted m p) by exact Hdone.
    cbn [eof inst rnd]. rewrite set_rand_same, NextBatch_exhausted by exact Hdone.
    cbn. auto.
  - unfold NextBatch at 1 3.
    destruct (Z.leb_spec (maxEvents m) (counter m)); [lia|].
    rewrite NextBatch_loop_app.
    destruct (NextBatch_loop_accepting _ _ HJ Ha1 0 m (rand p) [] HM Hc)
      as (Hret1 & Hcnt1 & Hmax1 & _).
    cbn zeta in *.
    set (b1 := NextBatch_loop (jitter p) evts1 0 m (rand p) []) in *.
    rewrite Hret1, NextBatch_loop_shift.
    assert (Hc1 : 0 <= counter (inst b1) <= maxEvents (inst b1)) by lia.
    assert (HM1 : is_uint64 (maxEvents (inst b1))) by (rewrite Hmax1; exact HM).
    unfold NextBatch. cbn [set_rand jitter rand].
    destruct (Z.leb_spec (maxEvents (inst b1)) (counter (inst b1))) as [Hdone1|Hmore1].
    + rewrite NextBatch_loop_exhausted by exact Hdone1.
      unfold shift, reported. cbn. rewrite Hret1, app_nil_r. conjs; settle.
    + destruct (NextBatch_loop_accepting _ _ HJ Ha2 0 (inst b1) (rnd b1) [] HM1 Hc1)
        as (Hret2 & _).
      cbn zeta in Hret2. unfold shift, reported.
      cbn [ret inst rnd written]. rewrite Hret2, Hret1. conjs; settle.
Qed.

Lemma Forall_accepts_concat (batches : list sdk.EventWriters) :
  Forall (Forall accepts_all) batches -> Forall accepts_all (concat batches).
Proof.
  induction 1 as [|evts batches Hevts _ IH]; cbn [concat]; [constructor|].
  apply Forall_app. split; assumption.
Qed.

Lemma final_rand_cons (p : MyPlugin) (b : Batch) (bs : list Batch) :
  final_rand p (b :: bs) = final_rand (set_rand p (rnd b)) bs.
Proof. unfold final_rand. cbn [map]. apply last_cons. Qed.

(** X7.  With a valid jitter and slots that accept every write, the way the
    host spreads its slots over calls does not matter: the calls made with the
    batches one after the other write the payloads, leave the instance and the
    random source, and report the total that a single call with all the slots
    would. *)
Theorem batching_does_not_matter (batches : list sdk.EventWriters)
    (p : MyPlugin) (m : MyInstance) :
  Forall (Forall accepts_all) batches ->
  valid_jitter (jitter p) ->
  is_uint64 (maxEvents m) -> 0 <= counter m <= maxEvents m ->
  let calls := drive p m batches in
  let single := NextBatch m p (concat batches) in
  all_written calls = written single
  /\ final_inst m calls = inst single
  /\ final_rand p calls = rnd single
  /\ total_reported calls = reported single.
Proof.
  intros Hacc. revert p m.
  induction Hacc as [|evts batches Hevts Hrest IH]; intros p m HJ HM Hc.
  - cbn [drive concat]. unfold all_written, final_inst, final_rand, total_reported.
    cbn [flat_map map List.last fold_right].
    destruct (Z.le_gt_cases (maxEvents m) (counter m)) as [Hdone|Hlt].
    + rewrite NextBatch_exhausted by exact Hdone. cbn. auto.
    + rewrite NextBatch_no_slots by exact Hlt. cbn. auto.
  - cbn [drive concat].
    destruct (NextBatch_accepting m p evts HJ Hevts HM Hc)
      as (Hret & _ & Hcnt & Hmax & _).
    destruct (NextBatch_app m p evts (concat batches) HJ Hevts
                (Forall_accepts_concat _ Hrest) HM Hc)
      as (Hw & Hi & Hr & Hrep).
    cbn zeta in *.
    set (b1 := NextBatch m p evts) in *.
    assert (Hr1 : exists a, ret b1 = Returned a) by (destruct Hret; eauto).
    destruct Hr1 as [a Ha]. rewrite Ha.
    destruct (IH (set_rand p (rnd b1)) (inst b1) HJ)
      as (IHw & IHi & IHr & IHrep); [rewrite Hmax; exact HM | lia |].
    rewrite final_inst_cons, final_rand_cons.
    unfold all_written, total_reported in *. cbn [flat_map fold_right].
    rewrite IHw, IHi, IHr, IHrep, Hw, Hi, Hr, Hrep. auto.
Qed.

Lemma batching_does_not_matter_witness :
  all_written
    (drive (Fixtures.plugin 10) (Fixtures.opened 5 3)
       [[Fixtures.accepting]; []; [Fixtures.accepting; Fixtures.accepting]])
  = written
      (NextBatch (Fixtures.opened 5 3) (Fixtures.plugin 10)
         (concat [[Fixtures.accepting]; []; [Fixtures.accepting; Fixtures.accepting]])).
Proof.
  apply (batching_does_not_matter
           [[Fixtures.accepting]; []; [Fixtures.accepting; Fixtures.accepting]]
           (Fixtures.plugin 10) (Fixtures.opened 5 3)).
  - repeat constructor.
  - vm_compute. split; [discriminate | reflexivity].
  - vm_compute. split; [discriminate | reflexivity].
  - vm_compute. split; discriminate.
Defined.

(** ** The payloads the plugin writes *)

Lemma NextBatch_loop_payloads (P : string -> Prop) (J : Z) :
  (forall x, is_uint64 x -> P (payload_of x)) ->
  forall evts n m r out,
    Forall P out -> Forall P (written (NextBatch_loop J evts n m r out)).
Proof.
  intros HP. induction evts as [|evt evts IH]; intros n m r out Hout;
    cbn [NextBatch_loop]; [exact Hout|].
  destruct (counter m <? maxEvents m); [|exact Hout].
  destruct (rand.Int63n r _) as [[v r']|]; [|exact Hout].
  destruct (sdk.Write evt _); [exact Hout|].
  apply IH. apply Forall_app. split; [exact Hout|].
  constructor; [|constructor]. apply HP. cbn. apply u64_range.
Qed.

Lemma NextBatch_payloads (P : string -> Prop) (m : MyInstance) (p : MyPlugin)
    (evts : sdk.EventWriters) :
  (forall x, is_uint64 x -> P (payload_of x)) ->
  Forall P (written (NextBatch m p evts)).
Proof.
  intros HP. unfold NextBatch.
  destruct (maxEvents m <=? counter m); [constructor|].
  apply NextBatch_loop_payloads; [exact HP | constructor].
Qed.

Lemma Extract_strvalue (req : sdk.ExtractRequest) (bytes : string) (v : Z) :
  strconv.Atoi bytes = Ok v -> sdk.FieldID req = 2 ->
  Extract req (event_of bytes) = set_value (sdk.StringValue bytes).
Proof.
  intros Hv Hid. unfold Extract, event_of.
  cbn [ioutil.ReadAll sdk.reader sdk.content sdk.failure].
  rewrite Hv, Hid. reflexivity.
Qed.

(** X8.  What [NextBatch] writes, [Extract] reads: every payload written by a
    call, whatever the jitter, the slots and the sample reached, is the payload
    of a [uint64] sample [x]; [dummy.value] of it is [x], also from [2^63] on
    where the payload carries a minus sign, and [dummy.strvalue] of it is the
    payload itself.  No payload of the plugin is rejected by its extractor. *)
Theorem written_payloads_extract (m : MyInstance) (p : MyPlugin)
    (evts : sdk.EventWriters) :
  Forall (fun bytes =>
            exists x, is_uint64 x
              /\ bytes = strconv.Itoa (int_of_uint64 x)
              /\ Extract value_request (event_of bytes)
                 = set_value (sdk.Uint64Value x)
              /\ Extract strvalue_request (event_of bytes)
                 = set_value (sdk.StringValue bytes))
         (written (NextBatch m p evts)).
Proof.
  apply NextBatch_payloads. intros x Hx. exists x.
  conjs; try reflexivity; try assumption.
  - apply Extract_value_payload, Hx.
  - apply (Extract_strvalue _ _ (int_of_uint64 x)); [|reflexivity].
    apply strconv_facts.Atoi_Itoa, int_of_uint64_range, Hx.
Qed.

(** X9.  The wire format.  Every payload written by a call renders a
    [uint64] sample [x] in one of two forms: for [x < 2^63], the canonical
    numeral of [x], digits only and no leading zero; from [2^63] on, a minus
    sign followed by the canonical numeral of [2^64 - x].  A payload is never
    empty and never starts with a plus sign or a needless zero. *)
Theorem written_payloads_format (m : MyInstance) (p : MyPlugin)
    (evts : sdk.EventWriters) :
  Forall (fun bytes =>
            exists x, is_uint64 x
              /\ ((x < two63
                   /\ is_canonical_numeral bytes
                   /\ decimal_value bytes 0 = x)
                  \/ (two63 <= x
                      /\ exists ds, bytes = String "-" ds
                           /\ is_canonical_numeral ds
                           /\ decimal_value ds 0 = two64 - x)))
         (written (NextBatch m p evts)).
Proof.
  apply NextBatch_payloads. intros x Hx. exists x. split; [exact Hx|].
  destruct (Z.lt_ge_cases x two63) as [Hlt|Hge].
  - left. destruct (payload_of_small x) as (_ & Hcan & Hval); [ints; lia|].
    conjs; assumption.
  - right. destruct (payload_of_large x) as (E & _); [ints; lia|].
    split; [exact Hge|]. exists (strconv.FormatUint (two64 - x)).
    assert (Hu : is_uint64 (two64 - x)) by (ints; lia).
    conjs; [exact E | | ].
    + apply strconv_facts.FormatUint_canonical, Hu.
    + apply strconv_facts.FormatUint_value, Hu.
Qed.

(** ** The outcomes of [Extract] *)

(** X10.  [Extract] panics in one case only: the stream reads, the payload
    decodes, the field is [dummy.divisible] and its argument decodes to zero.
    In every other case it returns. *)
Theorem Extract_panics_only_on_zero_divisor
    (req : sdk.ExtractRequest) (evt : sdk.EventReader) :
  (exists msg, Extract req evt = Panicked msg)
  <-> (sdk.failure (sdk.reader evt) = None
       /\ (exists v, strconv.Atoi (sdk.content (sdk.reader evt)) = Ok v)
       /\ sdk.FieldID req = 0
       /\ strconv.Atoi (sdk.Arg req) = Ok 0).
Proof.
  unfold Extract, ioutil.ReadAll, set_value, fail_with.
  destruct (sdk.failure (sdk.reader evt)) as [e|].
  { split; [intros [msg H]; discriminate | intros [H _]; discriminate]. }
  destruct (strconv.Atoi (sdk.content (sdk.reader evt))) as [v|e].
  2:{ split; [intros [msg H]; discriminate | intros (_ & [v H] & _); discriminate]. }
  destruct (Z.eqb_spec (sdk.FieldID req) 0) as [E0|N0].
  - destruct (strconv.Atoi (sdk.Arg req)) as [d|e].
    + destruct (Z.eqb_spec d 0) as [->|Nd].
      * split; [intros _; eauto 6 | intros _; eexists; reflexivity].
      * split.
        -- intros [msg H]. destruct (Z.rem v d =? 0); discriminate.
        -- intros (_ & _ & _ & H). congruence.
    + split; [intros [msg H]; discriminate | intros (_ & _ & _ & H); discriminate].
  - split; [|intros (_ & _ & H & _); contradiction].
    intros [msg H].
    destruct (sdk.FieldID req =? 1); [discriminate|].
    destruct (sdk.FieldID req =? 2); discriminate.
Qed.

(** X11.  A call of [Extract] that returns either sets a value and returns no
    error, or returns an error and sets no value.  A read error is returned as
    it is, and a payload that [Atoi] rejects makes the call fail with the
    error of [Atoi] for every field, [dummy.strvalue] and unknown fields
    included, whatever the argument. *)
Theorem Extract_value_or_error
    (req : sdk.ExtractRequest) (evt : sdk.EventReader) :
  (forall got err, Extract req evt = Returned (got, err) ->
     (exists v, got = Some v /\ err = None) \/ (exists e, got = None /\ err = Some e))
  /\ (forall e, sdk.failure (sdk.reader evt) = Some e -> Extract req evt = fail_with e)
  /\ (forall e, sdk.failure (sdk.reader evt) = None ->
        strconv.Atoi (sdk.content (sdk.reader evt)) = Err e ->
        Extract req evt = fail_with e).
Proof.
  unfold Extract, ioutil.ReadAll, set_value, fail_with. conjs.
  - intros got err.
    destruct (sdk.failure (sdk.reader evt)) as [e|].
    { intros H. injection H as <- <-. right. eauto. }
    destruct (strconv.Atoi (sdk.content (sdk.reader evt))) as [v|e].
    2:{ intros H. injection H as <- <-. right. eauto. }
    destruct (sdk.FieldID req =? 0).
    { destruct (strconv.Atoi (sdk.Arg req)) as [d|e].
      - destruct (d =? 0); [discriminate|].
        destruct (Z.rem v d =? 0); intros H; injection H as <- <-; left; eauto.
      - intros H. injection H as <- <-. right. eauto. }
    destruct (sdk.FieldID req =? 1).
    { intros H. injection H as <- <-. left. eauto. }
    destruct (sdk.FieldID req =? 2); intros H; injection H as <- <-;
      [left | right]; eauto.
  - intros e ->. reflexivity.
  - intros e -> ->. reflexivity.
Qed.

Lemma Extract_value_or_error_witness :
  Extract strvalue_request (event_of "n/a")
  = fail_with (NumError "Atoi" "n/a" ErrSyntax).
Proof.
  destruct (Extract_value_or_error strvalue_request (event_of "n/a"))
    as (_ & _ & Hbad).
  apply Hbad.
  - reflexivity.
  - vm_compute. reflexivity.
Defined.

(** ** The schema and the dispatch *)

(** X12.  [Fields] and [Extract] agree.  When [Extract] sets a value, the
    field id of the request is the position of an entry of [Fields], and the
    type that entry declares is the type of the value set.  When that entry
    declares no required argument, the argument of the request is not looked
    at: any other argument gives the same value. *)
Theorem Fields_match_Extract
    (req : sdk.ExtractRequest) (evt : sdk.EventReader) (v : sdk.FieldValue) :
  Extract req evt = set_value v ->
  0 <= sdk.FieldID req < Z.of_nat (length Fields)
  /\ exists entry,
       Fields !! Z.to_nat (sdk.FieldID req) = Some entry
       /\ sdk.Type_ entry = type_name v
       /\ (sdk.ArgRequired entry = false ->
           forall arg, Extract (with_arg req arg) evt = set_value v).
Proof.
  unfold Extract, ioutil.ReadAll, set_value, fail_with. cbn [with_arg sdk.FieldID sdk.Arg].
  destruct (sdk.failure (sdk.reader evt)) as [e|]; [discriminate|].
  destruct (strconv.Atoi (sdk.content (sdk.reader evt))) as [n|e]; [|discriminate].
  destruct (Z.eqb_spec (sdk.FieldID req) 0) as [E0|N0].
  { rewrite E0.
    destruct (strconv.Atoi (sdk.Arg req)) as [d|e]; [|discriminate].
    destruct (d =? 0); [discriminate|].
    destruct (Z.rem n d =? 0); intros H; injection H as <-;
      (split; [cbn; lia|]); eexists; (split; [reflexivity|]);
      (split; [reflexivity | discriminate]). }
  destruct (Z.eqb_spec (sdk.FieldID req) 1) as [E1|N1].
  { rewrite E1. intros H. injection H as <-.
    split; [cbn; lia|]. eexists. split; [reflexivity|].
    split; [reflexivity|]. intros _ arg. reflexivity. }
  destruct (Z.eqb_spec (sdk.FieldID req) 2) as [E2|N2]; [|discriminate].
  rewrite E2. intros H. injection H as <-.
  split; [cbn; lia|]. eexists. split; [reflexivity|].
  split; [reflexivity|]. intros _ arg. reflexivity.
Qed.

Lemma Fields_match_Extract_witness :
  exists entry,
    Fields !! Z.to_nat (sdk.FieldID strvalue_request) = Some entry
    /\ sdk.Type_ entry = type_name (sdk.StringValue "42")
    /\ (sdk.ArgRequired entry = false ->
        forall arg, Extract (with_arg strvalue_request arg) (event_of "42")
                    = set_value (sdk.StringValue "42")).
Proof.
  apply (Fields_match_Extract strvalue_request (event_of "42") (sdk.StringValue "42")).
  vm_compute. reflexivity.
Defined.

(** ** Divisibility *)

Lemma Extract_divisible (bytes arg : string) (v d : Z) :
  strconv.Atoi bytes = Ok v -> strconv.Atoi arg = Ok d -> d <> 0 ->
  Extract (divisible_request arg) (event_of bytes)
  = set_value (sdk.Uint64Value (if Z.rem v d =? 0 then 1 else 0)).
Proof.
  intros Hv Hd Hne. unfold Extract, event_of, divisible_request.
  cbn [ioutil.ReadAll sdk.reader sdk.content sdk.failure sdk.FieldID sdk.Arg Z.eqb].
  rewrite Hv, Hd. destruct (Z.eqb_spec d 0); [contradiction|].
  destruct (Z.rem v d =? 0); reflexivity.
Qed.

(** X13.  For a divisor other than zero, [dummy.divisible] yields 1 exactly
    when the divisor divides the value, and 0 otherwise, whatever the signs and
    for every value [Atoi] can decode, the least [int] included: Go's
    remainder takes the sign of the dividend, and only its being zero is looked
    at.  Any argument that decodes to [-d] gives the result of [d], and any
    payload that decodes to [-v] the result of [v]. *)
Theorem divisible_ignores_signs (bytes arg : string) (v d : Z) :
  strconv.Atoi bytes = Ok v -> strconv.Atoi arg = Ok d -> d <> 0 ->
  let got := Extract (divisible_request arg) (event_of bytes) in
  (got = set_value (sdk.Uint64Value 1) <-> (d | v))
  /\ (got = set_value (sdk.Uint64Value 0) <-> ~ (d | v))
  /\ (forall arg', strconv.Atoi arg' = Ok (- d) ->
        Extract (divisible_request arg') (event_of bytes) = got)
  /\ (forall bytes', strconv.Atoi bytes' = Ok (- v) ->
        Extract (divisible_request arg) (event_of bytes') = got).
Proof.
  intros Hv Hd Hne got. unfold got.
  rewrite (Extract_divisible bytes arg v d) by assumption.
  assert (Hz : (- Z.rem v d =? 0) = (Z.rem v d =? 0)).
  { destruct (Z.eqb_spec (Z.rem v d) 0), (Z.eqb_spec (- Z.rem v d) 0);
      try reflexivity; lia. }
  pose proof (Z.rem_divide v d Hne) as Hdiv.
  split; [|split; [|split]].
  - destruct (Z.eqb_spec (Z.rem v d) 0) as [E|E]; split;
      first [tauto | discriminate | (intros _; reflexivity)
            | (intros Hn; exfalso; tauto)].
  - destruct (Z.eqb_spec (Z.rem v d) 0) as [E|E]; split;
      first [tauto | discriminate | (intros _; reflexivity)
            | (intros Hn; exfalso; tauto)].
  - intros arg' Hd'.
    rewrite (Extract_divisible bytes arg' v (- d)) by (assumption || lia).
    rewrite Z.rem_opp_r by exact Hne. reflexivity.
  - intros bytes' Hv'.
    rewrite (Extract_divisible bytes' arg (- v) d) by assumption.
    rewrite Z.rem_opp_l, Hz by exact Hne. reflexivity.
Qed.

Lemma divisible_ignores_signs_witness :
  Extract (divisible_request "-4") (event_of "-9223372036854775808")
  = Extract (divisible_request "4") (event_of "-9223372036854775808").
Proof.
  destruct (divisible_ignores_signs "-9223372036854775808" "4" minInt64 4)
    as (_ & _ & Harg & _).
  - vm_compute. reflexivity.
  - vm_compute. reflexivity.
  - discriminate.
  - apply Harg. vm_compute. reflexivity.
Defined.

(** ** The rendering keeps the payload *)

Lemma substring_prefix (a s : string) :
  substring 0 (String.length a) (a ++ s) = a.
Proof.
  induction a as [|c a IH]; simpl.
  - destruct s; reflexivity.
  - rewrite IH. reflexivity.
Qed.

Lemma length_append (a s : string) :
  String.length (a ++ s) = (String.length a + String.length s)%nat.
Proof. induction a as [|c a IH]; simpl; [|rewrite IH]; reflexivity. Qed.

Lemma substring_skip (pre s : string) (k : nat) :
  substring (String.length pre) k (pre ++ s) = substring 0 k s.
Proof. induction pre as [|c pre IH]; simpl; [reflexivity | exact IH]. Qed.

(** The rendering is the payload between twelve bytes and two. *)
Lemma Sprintf_sample_parts (a : string) :
  Sprintf_sample a
  = ("{" ++ quote ++ "sample" ++ quote ++ ": " ++ quote) ++ (a ++ (quote ++ "}")).
Proof. reflexivity. Qed.

(** X14.  The text [String] returns for a stream that reads is 14 bytes longer
    than the payload and holds the payload, byte for byte, from offset 12 on;
    so two payloads with the same rendering are the same payload. *)
Theorem String_keeps_payload (bytes bytes' : string) :
  let text := fst (String_ (readable bytes)) in
  String.length text = (String.length bytes + 14)%nat
  /\ substring 12 (String.length bytes) text = bytes
  /\ (fst (String_ (readable bytes')) = text -> bytes' = bytes).
Proof.
  assert (Hsub : forall a, substring 12 (String.length a) (fst (String_ (readable a))) = a).
  { intros a. unfold String_, readable, ioutil.ReadAll.
    cbn [fst sdk.content sdk.failure]. rewrite Sprintf_sample_parts.
    change 12%nat
      with (String.length ("{" ++ quote ++ "sample" ++ quote ++ ": " ++ quote)).
    rewrite substring_skip. apply substring_prefix. }
  assert (Hlen : forall a, String.length (fst (String_ (readable a)))
                           = (String.length a + 14)%nat).
  { intros a. unfold String_, readable, ioutil.ReadAll.
    cbn [fst sdk.content sdk.failure]. rewrite Sprintf_sample_parts.
    rewrite !length_append. unfold quote. cbn [String.length]. lia. }
  cbn zeta. conjs; [apply Hlen | apply Hsub |].
  intros E. rewrite <- (Hsub bytes'), <- (Hsub bytes), E.
  f_equal. pose proof (Hlen bytes) as H1. pose proof (Hlen bytes') as H2.
  rewrite E in H2. lia.
Qed.

(** ** Configuration and parameters *)

(** X15.  [Init] either fails and leaves the plugin as it was, with the error
    of the decoder, which happens only for a configuration other than the
    empty text and [{}]; or it succeeds and installs the fresh random source.
    Of a configuration that decodes, only the entry [jitter] of the decoded
    object counts: two configurations, neither the empty text nor [{}], whose
    decoded objects differ in another key only, give the same result.  (A
    configuration in which another key has a value that is no [uint64] does
    not decode, and fails.) *)
Theorem Init_atomic_and_lenient
    (json : string -> result (gmap string Z))
    (seeded : rand.Rand) (m : MyPlugin) (cfg : string) :
  let done := Init json seeded m cfg in
  ((snd done = None /\ rand (fst done) = seeded)
   \/ (exists e, snd done = Some e /\ fst done = m /\ json cfg = Err e
                 /\ cfg <> "" /\ cfg <> "{}"))
  /\ (forall cfg' obj key val,
        cfg <> "" -> cfg <> "{}" -> cfg' <> "" -> cfg' <> "{}" ->
        json cfg = Ok obj -> json cfg' = Ok (<[key := val]> obj) ->
        key <> "jitter" ->
        Init json seeded m cfg' = done).
Proof.
  cbn zeta. split.
  - unfold Init.
    destruct (String.eqb_spec cfg "") as [->|Hne1]; cbn [negb andb];
      [left; split; reflexivity|].
    destruct (String.eqb_spec cfg "{}") as [->|Hne2]; cbn [negb andb];
      [left; split; reflexivity|].
    destruct (json cfg) as [o|e]; [left; split; reflexivity|].
    right. exists e. conjs; auto.
  - intros cfg' obj key val H1 H2 H1' H2' Hj Hj' Hkey.
    rewrite (Init_decoded json seeded m cfg H1 H2),
      (Init_decoded json seeded m cfg' H1' H2'), Hj, Hj'.
    rewrite lookup_insert_ne by exact Hkey. reflexivity.
Qed.

Lemma Init_atomic_and_lenient_witness :
  let plain := "{" ++ quote ++ "jitter" ++ quote ++ ": 4}" in
  let extra := "{" ++ quote ++ "jitter" ++ quote ++ ": 4, " ++ quote ++ "x"
                   ++ quote ++ ": 1}" in
  let json := fun text : string =>
                if String.eqb text plain then Ok (<["jitter" := 4]> ∅)
                else if String.eqb text extra
                     then Ok (<["x" := 1]> (<["jitter" := 4]> ∅))
                     else Err (HostError "invalid character") in
  Init json Fixtures.source (Fixtures.plugin 0) extra
  = Init json Fixtures.source (Fixtures.plugin 0) plain.
Proof.
  intros plain extra json.
  destruct (Init_atomic_and_lenient json Fixtures.source (Fixtures.plugin 0) plain)
    as (_ & Hkeys).
  apply (Hkeys extra (<["jitter" := 4]> ∅) "x" 1).
  - discriminate.
  - discriminate.
  - discriminate.
  - discriminate.
  - reflexivity.
  - reflexivity.
  - discriminate.
Defined.

(** X16.  [Open] succeeds exactly when the parameters decode to an object
    that has both [start] and [maxEvents]; the instance then starts at
    [counter = 0] with the sample [start], keeps the text of the parameters,
    and other keys have no effect.  When [start] is missing the error names
    [start], whether [maxEvents] is there or not. *)
Theorem Open_succeeds_iff
    (json : string -> result (gmap string Z)) (prms : string) (m : MyInstance) :
  (Open json prms = Ok m
   <-> exists obj, json prms = Ok obj
         /\ obj !! "start" = Some (sample m)
         /\ obj !! "maxEvents" = Some (maxEvents m)
         /\ counter m = 0 /\ initParams m = prms)
  /\ (forall obj, json prms = Ok obj -> obj !! "start" = None ->
        Open json prms
        = Err (Errorf "params %s did not contain start property" [ArgString prms])).
Proof.
  split; [split|].
  - intros H. destruct (Open_ok json prms m H) as (Hc & Hi & obj & Hj & Hs & Hm).
    exists obj. auto.
  - intros (obj & Hj & Hs & Hm & Hc & Hi). unfold Open. rewrite Hj, Hs, Hm.
    destruct m. cbn in *. subst. reflexivity.
  - intros obj Hj Hs. unfold Open. rewrite Hj, Hs. reflexivity.
Qed.

Lemma Open_succeeds_iff_witness :
  Open (fun _ => Ok (<["maxEvents" := 3]> ∅)) "{}"
  = Err (Errorf "params %s did not contain start property" [ArgString "{}"]).
Proof.
  destruct (Open_succeeds_iff (fun _ => Ok (<["maxEvents" := 3]> ∅)) "{}"
              (Fixtures.opened 0 0)) as (_ & Hmissing).
  apply (Hmissing (<["maxEvents" := 3]> ∅)).
  - reflexivity.
  - vm_compute. reflexivity.
Defined.

(** ** Zero jitter: the sample follows the counter *)

Lemma NextBatch_loop_zero_jitter_offset (evts : sdk.EventWriters) :
  forall n m r out,
    is_uint64 (maxEvents m) -> 0 <= counter m <= maxEvents m ->
    let b := NextBatch_loop 0 evts n m r out in
    u64 (sample (inst b) - counter (inst b)) = u64 (sample m - counter m)
    /\ maxEvents (inst b) = maxEvents m
    /\ 0 <= counter (inst b) <= maxEvents m
    /\ (is_uint64 (sample m) -> is_uint64 (sample (inst b))).
Proof.
  induction evts as [|evt evts IH]; intros n m r out HM Hc; cbn [NextBatch_loop].
  - cbn. auto.
  - destruct (Z.ltb_spec (counter m) (maxEvents m)) as [Hlt|Hge]; [|cbn; auto].
    rewrite Int63n_one.
    set (m2 := set_sample _ _).
    assert (Ec : counter m2 = counter m + 1) by (cbn; apply u64_small; ints; lia).
    assert (Es : sample m2 = u64 (sample m + 1)).
    { unfold m2. cbn. rewrite u64_add_r. reflexivity. }
    assert (Eo : u64 (sample m2 - counter m2) = u64 (sample m - counter m)).
    { rewrite Ec, Es. unfold u64. rewrite Zminus_mod_idemp_l. f_equal. lia. }
    assert (Hu : is_uint64 (sample m2)) by (rewrite Es; apply u64_range).
    destruct (sdk.Write evt _).
    + cbn [inst]. change (maxEvents m2) with (maxEvents m). conjs; auto; lia.
    + destruct (IH (n + 1) m2 (rand.advance r)
                  (out ++ [strconv.Itoa (int_of_uint64 (sample m2))])%list)
        as (Ho & Hmax & Hcnt & Hs); [exact HM | change (maxEvents m2) with (maxEvents m); lia |].
      change (maxEvents m2) with (maxEvents m) in *.
      cbn zeta in *. rewrite Ho, Eo. conjs; auto; lia.
Qed.

(** X17.  With a jitter of zero, in every state of a session, whatever
    happened to the writes on the way, the sample is the start value plus the
    counter, modulo [2^64]: a refused event is counted and its sample is used
    up. *)
Theorem zero_jitter_sample_follows_counter
    (json : string -> result (gmap string Z)) (prms : string) (m0 m : MyInstance) :
  Open json prms = Ok m0 ->
  is_uint64 (maxEvents m0) -> is_uint64 (sample m0) ->
  session 0 m0 m ->
  sample m = u64 (sample m0 + counter m) /\ 0 <= counter m <= maxEvents m0.
Proof.
  intros Hopen HM HS Hs.
  destruct (Open_ok _ _ _ Hopen) as (Hc0 & _).
  assert (Hinv : u64 (sample m - counter m) = sample m0
                 /\ maxEvents m = maxEvents m0
                 /\ 0 <= counter m <= maxEvents m0
                 /\ is_uint64 (sample m)).
  { induction Hs as [|m p evts _ IH Hp].
    - rewrite Hc0, Z.sub_0_r.
      conjs; first [assumption | apply u64_small, HS | reflexivity | (ints; lia)].
    - destruct IH as (Ho & Hmax & Hc & Hu). unfold NextBatch.
      destruct (maxEvents m <=? counter m); [cbn; auto|]. rewrite Hp.
      destruct (NextBatch_loop_zero_jitter_offset evts 0 m (rand p) [])
        as (Ho' & Hmax' & Hc' & Hu'); [rewrite Hmax; exact HM | lia |].
      cbn zeta in *. rewrite Ho', Hmax', Ho, Hmax in *. conjs; auto; lia. }
  destruct Hinv as (Ho & _ & Hc & Hu). split; [|exact Hc].
  rewrite <- Ho, u64_add_l. rewrite <- (u64_small (sample m) Hu) at 1.
  f_equal. lia.
Qed.

Lemma zero_jitter_sample_follows_counter_witness :
  let m := inst (NextBatch (Fixtures.opened 10 3) (Fixtures.plugin 0)
                   [Fixtures.accepting; Fixtures.refusing]) in
  sample m = u64 (10 + counter m) /\ 0 <= counter m <= 3.
Proof.
  intros m.
  apply (zero_jitter_sample_follows_counter (Fixtures.decoder 10 3)
           (Fixtures.params 10 3) (Fixtures.opened 10 3) m).
  - vm_compute. reflexivity.
  - vm_compute. split; [discriminate | reflexivity].
  - vm_compute. split; [discriminate | reflexivity].
  - apply session_batch; [apply session_opened | reflexivity].
Defined.

(** ** Payloads the plugin does not write but accepts *)

Lemma Atoi_plus_numeral (ds : string) :
  is_numeral ds ->
  strconv.Atoi (String "+" ds) =
    if decimal_value ds 0 <? two63 then Ok (decimal_value ds 0)
    else Err (strconv.rangeError "Atoi" (String "+" ds)).
Proof.
  intros Hnum. pose proof Hnum as [Hne Hd].
  pose proof (strconv_facts.decimal_value_mono _ 0 Hd ltac:(lia)) as H0.
  unfold strconv.Atoi.
  destruct ((0 <? Z.of_nat (String.length (String "+" ds)))
            && (Z.of_nat (String.length (String "+" ds)) <? 19)) eqn:Hfast.
  - apply andb_true_iff in Hfast as [_ Hlen]. apply Z.ltb_lt in Hlen.
    cbn [String.length] in Hlen. rewrite Nat2Z.inj_succ in Hlen.
    change (Ascii.eqb "+" "-") with false. change (Ascii.eqb "+" "+") with true.
    cbn [orb andb].
    destruct ds as [|d ds]; [congruence|].
    replace (Z.of_nat (String.length (String d ds)) <? 1) with false
      by (symmetry; apply Z.ltb_ge; cbn [String.length]; lia).
    rewrite strconv_facts.Atoi_fast_loop_spec by exact Hd.
    pose proof (strconv_facts.short_numeral_small _ Hd ltac:(lia)) as Hs.
    destruct (Z.ltb_spec (decimal_value (String d ds) 0) two63);
      [reflexivity | ints; lia].
  - unfold strconv.ParseInt.
    change (Ascii.eqb "+" "+") with true. cbn iota.
    rewrite (strconv_facts.ParseUint_numeral _ Hnum).
    destruct (Z.ltb_spec (decimal_value ds 0) two64) as [H64|H64].
    + cbn [negb andb]. unfold int_of_uint64.
      destruct (Z.leb_spec two63 (decimal_value ds 0));
        destruct (Z.ltb_spec (decimal_value ds 0) two63);
        try reflexivity; ints; lia.
    + unfold strconv.rangeError.
      destruct (Z.ltb_spec (decimal_value ds 0) two63); [ints; lia | reflexivity].
Qed.

Lemma leading_zero_numeral (ds : string) :
  is_numeral ds ->
  is_numeral (String "0" ds) /\ decimal_value (String "0" ds) 0 = decimal_value ds 0.
Proof.
  intros [Hne Hd]. split; [split; [discriminate | exact Hd]|]. reflexivity.
Qed.

(** X18.  [Extract] accepts more than [NextBatch] writes.  For a numeral of
    value [n] below [2^63], the numeral itself, the numeral after a plus sign
    and the numeral after one more zero all decode to [n]: [dummy.value] is [n]
    for the three payloads, while [dummy.strvalue] gives back each payload as
    it came, sign and zero included. *)
Theorem lenient_payload_forms (ds : string) :
  is_numeral ds -> decimal_value ds 0 < two63 ->
  let n := decimal_value ds 0 in
  Forall (fun bytes =>
            Extract value_request (event_of bytes) = set_value (sdk.Uint64Value n)
            /\ Extract strvalue_request (event_of bytes)
               = set_value (sdk.StringValue bytes))
         [ds; String "+" ds; String "0" ds].
Proof.
  intros Hnum Hlt n.
  pose proof (strconv_facts.decimal_value_mono _ 0 (proj2 Hnum) ltac:(lia)) as H0.
  assert (Hok : forall bytes, strconv.Atoi bytes = Ok n ->
            Extract value_request (event_of bytes) = set_value (sdk.Uint64Value n)
            /\ Extract strvalue_request (event_of bytes)
               = set_value (sdk.StringValue bytes)).
  { intros bytes Hb. split.
    - unfold Extract, event_of.
      cbn [ioutil.ReadAll sdk.reader sdk.content sdk.failure]. rewrite Hb. cbn.
      rewrite uint64_of_int_nonneg by (fold n in H0; ints; lia). reflexivity.
    - apply (Extract_strvalue _ _ n); [exact Hb | reflexivity]. }
  destruct (leading_zero_numeral ds Hnum) as [Hnum0 Hval0].
  constructor; [apply Hok | constructor; [apply Hok | constructor; [apply Hok | constructor]]].
  - rewrite (strconv_facts.Atoi_numeral ds Hnum). fold n.
    destruct (Z.ltb_spec n two63); [reflexivity | lia].
  - rewrite (Atoi_plus_numeral ds Hnum). fold n.
    destruct (Z.ltb_spec n two63); [reflexivity | lia].
  - rewrite (strconv_facts.Atoi_numeral _ Hnum0), Hval0. fold n.
    destruct (Z.ltb_spec n two63); [reflexivity | lia].
Qed.

Lemma lenient_payload_forms_witness :
  Forall (fun bytes =>
            Extract value_request (event_of bytes) = set_value (sdk.Uint64Value 42)
            /\ Extract strvalue_request (event_of bytes)
               = set_value (sdk.StringValue bytes))
         ["42"; "+42"; "042"].
Proof.
  apply (lenient_payload_forms "42").
  - split; [discriminate | reflexivity].
  - vm_compute. reflexivity.
Defined.
